(** * coinselect: the validators and the sweep selector [maxFunds]

    A shallow embedding of [src/validation.ts] and of the [maxFunds]
    algorithm, and the properties the specification states about them.

    Conventions of the embedding.
    - A TypeScript [number] is a value of [number]: a rational, or one of
      the three non-finite values [NaN], [Infinity], [-Infinity]. The
      numbers a program holds are the binary64 ones, and [+], [-], [*] and
      [/] return the binary64 number nearest to the exact result
      ([round64]: round to nearest, ties to even, 53 bits, subnormals,
      overflow to the infinities), as ECMAScript prescribes. Comparisons,
      [Math.ceil] and [Number.isInteger] are exact. The two zeros are one.
    - [throw new Error(msg)] is the [Throw] outcome of the [result] monad; an
      [error] records which message template was used and its arguments.
    - A JavaScript object has an identity: [OutputWithValue] carries it in
      [oid], and [utxo !== validUtxo] compares identities.
    - [vsize], [isDust], [MAX_FEE_RATE] and [DUST_RELAY_FEE_RATE] are
      imported by the two files from modules that are not part of the
      sources at hand; they are parameters of the development. *)

From Stdlib Require Import ZArith QArith Qround Qpower Lqa Lia List Bool.
From Stdlib Require Qcanon.
From Stdlib Require Import Sorted.
Import ListNotations.

Set Implicit Arguments.

(* ================================================================== *)
(** ** Numbers *)

Module Num.

Inductive number : Type :=
| Fin (q : Q)
| PosInf
| NegInf
| NaN.

Definition of_Z (z : Z) : number := Fin (inject_Z z).

Definition zero : number := Fin 0.
Definition one : number := Fin 1.

(** [Number.isFinite] *)
Definition isFinite (x : number) : bool :=
  match x with Fin _ => true | _ => false end.

(** [Number.isInteger] *)
Definition isInteger (x : number) : bool :=
  match x with
  | Fin q => Qeq_bool q (inject_Z (Qfloor q))
  | _ => false
  end.

(** *** Rounding to binary64 *)

(** 2 to the power [z] *)
Definition pow2 (z : Z) : Q := (2 ^ z)%Q.

(** The exponent of a positive rational [a]: the [e] with
    2^e <= a < 2^(e+1). *)
Definition ilog2 (a : Q) : Z :=
  let e0 := (Z.log2 (Qnum a) - Z.log2 (Zpos (Qden a)))%Z in
  if Qle_bool (pow2 e0) a then e0 else (e0 - 1)%Z.

(** The integer nearest to [t], the even one of the two when [t] is half
    way. *)
Definition rne (t : Q) : Z :=
  let f := Qfloor t in
  match (t - inject_Z f ?= 1 # 2)%Q with
  | Lt => f
  | Gt => (f + 1)%Z
  | Eq => if Z.even f then f else (f + 1)%Z
  end.

(** The exponent of the unit in the last place for a positive [a]: 53
    significant bits, and no unit below 2^-1074. *)
Definition ulp_exp (a : Q) : Z := Z.max (ilog2 a - 52) (-1074).

(** The nearest multiple of the unit in the last place, for a positive
    [a]. *)
Definition round_pos (a : Q) : Q :=
  (inject_Z (rne (a / pow2 (ulp_exp a))) * pow2 (ulp_exp a))%Q.

(** The binary64 number nearest to the rational [x]; what reaches 2^1024
    is infinite. *)
Definition round64 (x : Q) : number :=
  let q := Qred x in
  match (q ?= 0)%Q with
  | Eq => Fin 0
  | Gt => let r := round_pos q in
          if Qle_bool (pow2 1024) r then PosInf else Fin (Qred r)
  | Lt => let r := round_pos (- q) in
          if Qle_bool (pow2 1024) r then NegInf else Fin (Qred (- r))
  end.

(** A decimal literal of the program, such as [1.3]. *)
Definition double (x : Q) : number := round64 x.

(** *** Operations *)

(** unary minus *)
Definition neg (x : number) : number :=
  match x with
  | Fin q => Fin (- q)
  | PosInf => NegInf
  | NegInf => PosInf
  | NaN => NaN
  end.

(** [a + b] *)
Definition add (a b : number) : number :=
  match a, b with
  | NaN, _ | _, NaN => NaN
  | Fin x, Fin y => round64 (x + y)
  | PosInf, NegInf | NegInf, PosInf => NaN
  | PosInf, _ | _, PosInf => PosInf
  | NegInf, _ | _, NegInf => NegInf
  end.

(** [a - b] *)
Definition sub (a b : number) : number := add a (neg b).

(** the sign of a rational: [Gt] positive, [Eq] zero, [Lt] negative *)
Definition sgn (q : Q) : comparison := (q ?= 0)%Q.

(** an infinity of the sign given by the product of two signs *)
Definition signed_inf (s1 s2 : comparison) : number :=
  match s1, s2 with
  | Eq, _ | _, Eq => NaN
  | Lt, Lt | Gt, Gt => PosInf
  | _, _ => NegInf
  end.

(** [a * b] *)
Definition mul (a b : number) : number :=
  match a, b with
  | NaN, _ | _, NaN => NaN
  | Fin x, Fin y => round64 (x * y)
  | Fin x, PosInf | PosInf, Fin x => signed_inf (sgn x) Gt
  | Fin x, NegInf | NegInf, Fin x => signed_inf (sgn x) Lt
  | PosInf, PosInf | NegInf, NegInf => PosInf
  | PosInf, NegInf | NegInf, PosInf => NegInf
  end.

(** [a / b]; a zero divisor is the positive zero *)
Definition div (a b : number) : number :=
  match a, b with
  | NaN, _ | _, NaN => NaN
  | Fin x, Fin y =>
      if Qeq_bool y 0 then signed_inf (sgn x) Gt else round64 (x / y)
  | Fin _, _ => Fin 0
  | PosInf, Fin y => if Qle_bool 0 y then PosInf else NegInf
  | NegInf, Fin y => if Qle_bool 0 y then NegInf else PosInf
  | _, _ => NaN
  end.

(** [Math.ceil] *)
Definition ceil (x : number) : number :=
  match x with
  | Fin q => Fin (inject_Z (Qceiling q))
  | _ => x
  end.

Definition Qlt_bool (x y : Q) : bool := negb (Qle_bool y x).

(** [a < b] *)
Definition ltb (a b : number) : bool :=
  match a, b with
  | NaN, _ | _, NaN => false
  | Fin x, Fin y => Qlt_bool x y
  | Fin _, PosInf => true
  | Fin _, NegInf => false
  | PosInf, _ => false
  | NegInf, NegInf => false
  | NegInf, _ => true
  end.

(** [a > b] *)
Definition gtb (a b : number) : bool := ltb b a.

(** [a <= b] *)
Definition leb (a b : number) : bool :=
  match a, b with
  | NaN, _ | _, NaN => false
  | Fin x, Fin y => Qle_bool x y
  | Fin _, PosInf => true
  | Fin _, NegInf => false
  | PosInf, PosInf => true
  | PosInf, _ => false
  | NegInf, _ => true
  end.

(** [a >= b] *)
Definition geb (a b : number) : bool := leb b a.

(** Two numbers denote the same value. *)
Definition eqv (a b : number) : Prop :=
  match a, b with
  | Fin x, Fin y => x == y
  | PosInf, PosInf | NegInf, NegInf | NaN, NaN => True
  | _, _ => False
  end.

End Num.

Import Num.

Declare Scope num_scope.
Delimit Scope num_scope with num.
Bind Scope num_scope with number.
Infix "+" := add : num_scope.
Infix "-" := sub : num_scope.
Infix "*" := mul : num_scope.
Infix "/" := div : num_scope.
Infix "<?" := ltb : num_scope.
Infix ">?" := gtb : num_scope.
Infix "<=?" := leb : num_scope.
Infix ">=?" := geb : num_scope.

(* ================================================================== *)
(** ** Errors and the result monad *)

(** One constructor per [throw new Error(...)] site's message. *)
Inductive error : Type :=
| EmptyGroupError                              (* 'Empty group' *)
| InvalidValueError (value : number)           (* `Input value ${value} not supported` *)
| InvalidFeeRateError (feeRate : number)       (* `Fee rate ${feeRate} not supported` *)
| DustTargetError (index : nat)                (* `Target #${index} is dusty` *)
| InsufficientFeeError (finalFeeRate feeRate : number)
                                               (* `Final fee rate ... lower than required ...` *)
| NegativeFeeContribution.                     (* `feeContribution < 0` *)

Inductive result (A : Type) : Type :=
| Ok (a : A)
| Throw (e : error).

Arguments Ok {A} a.
Arguments Throw {A} e.

Definition bind {A B} (m : result A) (k : A -> result B) : result B :=
  match m with
  | Ok a => k a
  | Throw e => Throw e
  end.

Notation "x <- m ;; k" := (bind m (fun x => k))
  (at level 61, m at next level, right associativity).
Notation "m ;; k" := (bind m (fun _ => k))
  (at level 61, right associativity).

(** [Array.prototype.filter] with a callback that may throw: the callback
    runs on the elements in order and the first throw aborts the call. *)
Fixpoint filterM {A} (f : A -> result bool) (l : list A) : result (list A) :=
  match l with
  | [] => Ok []
  | x :: t =>
      b <- f x ;;
      r <- filterM f t ;;
      Ok (if b then x :: r else r)
  end.

(* ================================================================== *)
(** ** The data model *)

(** [OutputWithValue]: [{ output, value }], with the identity of the
    object that holds it. [Output] stands for [OutputInstance] of the
    descriptors library, an opaque handle. *)
Record OutputWithValue (Output : Type) : Type := mkOutputWithValue {
  oid : nat;
  output : Output;
  value : number
}.

Arguments oid {Output} _.
Arguments output {Output} _.
Arguments value {Output} _.

(** Which array object a returned [utxos] field refers to: the array the
    caller passed, or the array [utxos.filter(...)] created. *)
Inductive ArrayRef : Type :=
| CallerArray
| FilteredArray.

(** The object [maxFunds] returns. *)
Record Selection (Output : Type) : Type := mkSelection {
  sel_utxos_ref : ArrayRef;
  sel_utxos : list (OutputWithValue Output);
  sel_targets : list (OutputWithValue Output);
  sel_fee : number;
  sel_vsize : number
}.

Arguments sel_utxos_ref {Output} _.
Arguments sel_utxos {Output} _.
Arguments sel_targets {Output} _.
Arguments sel_fee {Output} _.
Arguments sel_vsize {Output} _.

(** The object [{ fee, vsize }]. *)
Record FeeAndVsize : Type := mkFeeAndVsize {
  fv_fee : number;
  fv_vsize : number
}.

(* ================================================================== *)
(** ** A size model, for examples *)

Module Model.

(** Modelled from the spec: the Output Handle of section 3, which exposes
    a size contribution when used as an input and one when used as an
    output (here in weight units); [./vsize] and the descriptors library
    are not among the sources. *)
Record Handle : Type := mkHandle {
  inputWeight : N;
  outputWeight : N
}.

Definition sumN (l : list N) : Z := fold_right Z.add 0%Z (map Z.of_N l).

(** Modelled from the spec: the Size Estimator of section 4.1, base
    overhead plus a contribution per input and per output, in weight
    units, divided by 4 and rounded up. *)
Definition vsize (inputs outputs : list Handle) : Z :=
  (40 + sumN (map inputWeight inputs) + sumN (map outputWeight outputs) + 3) / 4.

(** Modelled from the spec: the Dust Classifier of section 4.2, the value
    is below the cost of spending the output at the relay fee rate. *)
Definition isDust (h : Handle) (value dustRelayFeeRate : number) : bool :=
  (value <? dustRelayFeeRate * of_Z ((Z.of_N (inputWeight h) + 3) / 4))%num.

(** Values for the two constants of [./index], in sat/vB. *)
Definition MAX_FEE_RATE : Q := 10000.
Definition DUST_RELAY_FEE_RATE : Q := 3.

(** A witness-program input and a legacy one. *)
Definition segwit : Handle := {| inputWeight := 272; outputWeight := 124 |}.
Definition legacy : Handle := {| inputWeight := 592; outputWeight := 136 |}.

Definition utxo (id : nat) (h : Handle) (v : Z) : OutputWithValue Handle :=
  {| oid := id; output := h; value := of_Z v |}.

(** A witness-program shape one weight unit heavier as an input: one
    such input and one such output make 110 vbytes. *)
Definition wpkh : Handle := {| inputWeight := 273; outputWeight := 124 |}.

(** One coin of 1 BTC. *)
Definition oneCoin : list (OutputWithValue Handle) :=
  [utxo 0 wpkh 100000000].

(** 91 coins of 99999999999999 each: their total, 9099999999999909, is
    above 2^53 and odd. *)
Definition bigWallet : list (OutputWithValue Handle) :=
  map (fun i => utxo i segwit 99999999999999) (seq 0 91).

(** Two inputs worth spending. *)
Definition wallet : list (OutputWithValue Handle) :=
  [utxo 0 segwit 100000; utxo 1 legacy 50000].

(** The second input costs more than it brings. *)
Definition dustyWallet : list (OutputWithValue Handle) :=
  [utxo 0 segwit 100000; utxo 1 legacy 100].

(** Nothing here is worth a transaction. *)
Definition poorWallet : list (OutputWithValue Handle) :=
  [utxo 0 legacy 200].

(** The sweep of [wallet] to a witness-program recipient at 1 sat/vB:
    257 vbytes, both inputs kept. *)
Definition sweepOfWallet : Selection Handle :=
  {| sel_utxos_ref := CallerArray;
     sel_utxos := wallet;
     sel_targets := [utxo 2 segwit 149743];
     sel_fee := of_Z 257;
     sel_vsize := of_Z 257 |}.

(** The sweep of [dustyWallet]: 109 vbytes, the legacy input pruned. *)
Definition sweepOfDustyWallet : Selection Handle :=
  {| sel_utxos_ref := FilteredArray;
     sel_utxos := [utxo 0 segwit 100000];
     sel_targets := [utxo 2 segwit 99891];
     sel_fee := of_Z 109;
     sel_vsize := of_Z 109 |}.

End Model.

(* ================================================================== *)
(** ** The source *)

Section Coinselect.

Variable Output : Type.

(** [vsize(inputs, outputs)] of [./vsize]: the virtual size, in vbytes, of
    a transaction with these inputs and outputs. *)
Variable vsize : list Output -> list Output -> Z.

(** [isDust(output, value, dustRelayFeeRate)] of [./dust]. *)
Variable isDust : Output -> number -> number -> bool.

(** The two constants of [./index]. *)
Variable MAX_FEE_RATE : Q.
Variable DUST_RELAY_FEE_RATE : Q.

(** [a !== b] on two objects *)
Definition neq_ref (a b : OutputWithValue Output) : bool :=
  negb (Nat.eqb (oid a) (oid b)).

(** [xs.reduce((a, x) => a + x.value, 0)] *)
Definition sumValues (xs : list (OutputWithValue Output)) : number :=
  fold_left (fun a x => (a + value x)%num) xs zero.

(* ================================================================== *)
(** ** validation.ts *)

(** The test of line 10:
    [!Number.isInteger(value) || value <= 0 || value > 1e14] *)
Definition valueNotSupported (v : number) : bool :=
  negb (isInteger v) || (v <=? zero)%num || (v >? of_Z (10 ^ 14))%num.

Fixpoint checkValues (l : list (OutputWithValue Output)) : result unit :=
  match l with
  | [] => Ok tt
  | outputAndValue :: rest =>
      let value := value outputAndValue in
      if valueNotSupported value then Throw (InvalidValueError value)
      else checkValues rest
  end.

Definition validateOutputWithValues (outputAndValues : list (OutputWithValue Output))
  : result unit :=
  if Nat.eqb (length outputAndValues) 0 then Throw EmptyGroupError
  else checkValues outputAndValues.

(** The test of line 16. *)
Definition feeRateNotSupported (feeRate : number) : bool :=
  negb (isFinite feeRate) || (feeRate <? one)%num
  || (feeRate >? Fin MAX_FEE_RATE)%num.

Definition validateFeeRate (feeRate : number) : result unit :=
  if feeRateNotSupported feeRate then Throw (InvalidFeeRateError feeRate)
  else Ok tt.

(** A parameter with a default value: [undefined] selects the default. *)
Definition orDefault (arg : option number) (dflt : number) : number :=
  match arg with Some x => x | None => dflt end.

(** The loop of [validateDust] over [Object.entries(targets)], from entry
    number [index] on. *)
Fixpoint dustLoop (index : nat) (targets : list (OutputWithValue Output))
  (dustRelayFeeRate : number) : result unit :=
  match targets with
  | [] => Ok tt
  | target :: rest =>
      if isDust (output target) (value target) dustRelayFeeRate
      then Throw (DustTargetError index)
      else dustLoop (S index) rest dustRelayFeeRate
  end.

Definition validateDust (targets : list (OutputWithValue Output))
  (dustRelayFeeRate : option number) : result unit :=
  dustLoop 0 targets (orDefault dustRelayFeeRate (Fin DUST_RELAY_FEE_RATE)).

Definition validatedFeeAndVsize (utxos targets : list (OutputWithValue Output))
  (feeRate : number) : result FeeAndVsize :=
  let fee := (sumValues utxos - sumValues targets)%num in
  let vsizeResult := of_Z (vsize (map output utxos) (map output targets)) in
  let finalFeeRate := (fee / vsizeResult)%num in
  if (finalFeeRate <? feeRate)%num
  then Throw (InsufficientFeeError finalFeeRate feeRate)
  else
    validateFeeRate finalFeeRate ;;
    Ok {| fv_fee := fee; fv_vsize := vsizeResult |}.

(* ================================================================== *)
(** ** maxFunds *)

(** An identity that no object of [l] has: the one of a new object. *)
Definition freshOid (l : list (OutputWithValue Output)) : nat :=
  S (fold_right Nat.max 0%nat (map oid l)).

Section MaxFunds.

Variable utxos : list (OutputWithValue Output).
Variable remainder : Output.
Variable feeRate : number.

(** [Math.ceil(feeRate * vsize(xs.map(utxo => utxo.output), [remainder]))] *)
Definition feeFor (xs : list (OutputWithValue Output)) : number :=
  ceil (feeRate * of_Z (vsize (map output xs) [remainder])).

Definition allUtxosFee : number := feeFor utxos.

(** [feeContribution] of the filter callback, for the element
    [validUtxo]. *)
Definition feeContribution (validUtxo : OutputWithValue Output) : number :=
  let txSizeWithoutUtxo :=
    of_Z (vsize (map output (filter (fun utxo => neq_ref utxo validUtxo) utxos))
                [remainder]) in
  (allUtxosFee - ceil (feeRate * txSizeWithoutUtxo))%num.

(** The callback given to [utxos.filter]. *)
Definition keepUtxo (validUtxo : OutputWithValue Output) : result bool :=
  let feeContribution := feeContribution validUtxo in
  if (feeContribution <? zero)%num then Throw NegativeFeeContribution
  else Ok (value validUtxo >? feeContribution)%num.

Definition validUtxos : result (list (OutputWithValue Output)) :=
  filterM keepUtxo utxos.

Definition validFee (validUtxos : list (OutputWithValue Output)) : number :=
  feeFor validUtxos.

Definition remainderValue (validUtxos : list (OutputWithValue Output)) : number :=
  let validUtxosValue := sumValues validUtxos in
  (validUtxosValue - validFee validUtxos)%num.

(** The body of [maxFunds] after the three validations. *)
Definition select (dustRelayFeeRate : number) : result (option (Selection Output)) :=
  validUtxos <- validUtxos ;;
  let remainderValue := remainderValue validUtxos in
  if negb (isDust remainder remainderValue dustRelayFeeRate) then
    let targets :=
      [ {| oid := freshOid utxos; output := remainder;
           value := remainderValue |} ] in
    fv <- validatedFeeAndVsize validUtxos targets feeRate ;;
    Ok (Some
      {| sel_utxos_ref :=
           if Nat.eqb (length utxos) (length validUtxos)
           then CallerArray else FilteredArray;
         sel_utxos :=
           if Nat.eqb (length utxos) (length validUtxos)
           then utxos else validUtxos;
         sel_targets := targets;
         sel_fee := fv_fee fv;
         sel_vsize := fv_vsize fv |})
  else Ok None.

Definition maxFunds (dustRelayFeeRate : option number)
  : result (option (Selection Output)) :=
  let dustRelayFeeRate :=
    orDefault dustRelayFeeRate (Fin DUST_RELAY_FEE_RATE) in
  validateOutputWithValues utxos ;;
  validateFeeRate feeRate ;;
  validateFeeRate dustRelayFeeRate ;;
  select dustRelayFeeRate.

End MaxFunds.

(* ================================================================== *)
(** ** Vocabulary of the specification *)

(** The values a ValuedOutput may carry according to the data model:
    the integers of (0, 10^14]. *)
Definition SupportedValue (v : number) : Prop :=
  exists z : Z, eqv v (of_Z z) /\ (0 < z <= 10 ^ 14)%Z.

(** The fee rates of the data model: finite, at least 1, at most the
    configured maximum. *)
Definition SupportedFeeRate (r : number) : Prop :=
  exists q : Q, r = Fin q /\ 1 <= q /\ q <= MAX_FEE_RATE.

(** No target of the list is dust at the given relay fee rate. *)
Definition NoDust (rate : number) (l : list (OutputWithValue Output)) : Prop :=
  Forall (fun t => isDust (output t) (value t) rate = false) l.

(** The size estimator does not grow when an input is removed. *)
Definition VsizeMonotone : Prop :=
  forall (l1 l2 : list Output) (x : Output) (outputs : list Output),
    (vsize (l1 ++ l2) outputs <= vsize (l1 ++ x :: l2) outputs)%Z.

(** Every transaction has a positive virtual size. *)
Definition VsizePositive : Prop :=
  forall inputs outputs : list Output, (0 < vsize inputs outputs)%Z.

(** The rational a finite number stands for. *)
Definition exactValue (v : number) : Q :=
  match v with Fin q => q | _ => 0 end.

(** The total of the values of a list, in the rationals. *)
Definition totalValue (l : list (OutputWithValue Output)) : Q :=
  fold_right (fun u acc => exactValue (value u) + acc) 0 l.

(** The marginal fee contribution of [u] in the sweep of [utxos]: the fee
    of the full set minus the fee of the set without [u]. *)
Definition marginalFee (utxos : list (OutputWithValue Output))
  (remainder : Output) (feeRate : number) (u : OutputWithValue Output)
  : number :=
  (feeFor remainder feeRate utxos
   - feeFor remainder feeRate (filter (fun x => neq_ref x u) utxos))%num.

(** [u] brings more than it costs. *)
Definition worthSpending (utxos : list (OutputWithValue Output))
  (remainder : Output) (feeRate : number) (u : OutputWithValue Output)
  : bool :=
  (value u >? marginalFee utxos remainder feeRate u)%num.

(* ================================================================== *)
(** ** Finding a selected utxo in the caller's list *)

(** [l.indexOf(x)] on an array of objects, counting from [i]: the position
    of the first element that is the object [x], or -1. *)
Fixpoint indexOfFrom (i : Z) (l : list (OutputWithValue Output))
  (x : OutputWithValue Output) : Z :=
  match l with
  | [] => (-1)%Z
  | y :: t =>
      if Nat.eqb (oid y) (oid x) then i else indexOfFrom (i + 1) t x
  end.

(** [utxos.indexOf(selectedUtxo)] of the tests' index mapping. *)
Definition indexOf (utxos : list (OutputWithValue Output))
  (selectedUtxo : OutputWithValue Output) : Z :=
  indexOfFrom 0 utxos selectedUtxo.

(* ================================================================== *)
(** ** Facts on numbers *)

Lemma Qlt_bool_iff (x y : Q) : Qlt_bool x y = true <-> x < y.
Proof.
  unfold Qlt_bool. rewrite negb_true_iff.
  split; intro H.
  - apply Qnot_le_lt. intro Hle. apply Qle_bool_iff in Hle. congruence.
  - destruct (Qle_bool y x) eqn:E; [|reflexivity].
    apply Qle_bool_iff in E. apply Qle_not_lt in E. contradiction.
Qed.

Lemma Qlt_bool_false_iff (x y : Q) : Qlt_bool x y = false <-> y <= x.
Proof.
  unfold Qlt_bool. rewrite negb_false_iff. apply Qle_bool_iff.
Qed.

Lemma Qle_bool_false_iff (x y : Q) : Qle_bool x y = false <-> y < x.
Proof.
  rewrite <- Qlt_bool_iff. unfold Qlt_bool.
  destruct (Qle_bool x y); simpl; split; congruence.
Qed.

Lemma Qeq_bool_false_iff (x y : Q) : Qeq_bool x y = false <-> ~ x == y.
Proof.
  split; intro H.
  - now apply Qeq_bool_neq.
  - destruct (Qeq_bool x y) eqn:E; [|reflexivity].
    apply Qeq_bool_iff in E. contradiction.
Qed.

Lemma eqv_refl (a : number) : eqv a a.
Proof. destruct a; simpl; auto. reflexivity. Qed.

(** A rational passes [Number.isInteger] exactly when it is the image of
    an integer. *)
Lemma isInteger_Fin (q : Q) :
  isInteger (Fin q) = true <-> exists z : Z, q == inject_Z z.
Proof.
  simpl. rewrite Qeq_bool_iff. split.
  - intro H. now exists (Qfloor q).
  - intros [z Hz]. rewrite Hz at 2. rewrite Qfloor_Z. exact Hz.
Qed.

Lemma valueNotSupported_false (v : number) :
  valueNotSupported v = false <-> SupportedValue v.
Proof.
  unfold valueNotSupported, SupportedValue.
  rewrite !orb_false_iff, negb_false_iff.
  destruct v as [q| | |]; simpl;
    try (split; [intros [[H _] _]; discriminate | intros [z [[] _]]]).
  rewrite Qle_bool_false_iff. unfold gtb. simpl.
  rewrite Qlt_bool_false_iff, Qeq_bool_iff.
  split.
  - intros [[Hint Hpos] Hcap]. exists (Qfloor q). split; [exact Hint|].
    rewrite Hint in Hpos, Hcap.
    change 0 with (inject_Z 0) in Hpos. rewrite <- Zlt_Qlt in Hpos.
    rewrite <- Zle_Qle in Hcap. lia.
  - intros [z [Hz [Hpos Hcap]]].
    assert (Hf : Qfloor q = z) by (rewrite Hz; apply Qfloor_Z).
    rewrite Hf. repeat split; [exact Hz| |]; rewrite Hz.
    + change 0 with (inject_Z 0). now rewrite <- Zlt_Qlt.
    + now rewrite <- Zle_Qle.
Qed.

Lemma valueNotSupported_true (v : number) :
  valueNotSupported v = true <-> ~ SupportedValue v.
Proof.
  rewrite <- valueNotSupported_false.
  destruct (valueNotSupported v); split; congruence.
Qed.

Lemma feeRateNotSupported_false (r : number) :
  feeRateNotSupported r = false <-> SupportedFeeRate r.
Proof.
  unfold feeRateNotSupported, SupportedFeeRate, gtb.
  rewrite !orb_false_iff, negb_false_iff.
  destruct r as [q| | |]; simpl;
    try (split; [intros [[H _] _]; discriminate | intros [q' [H _]]; discriminate]).
  rewrite !Qlt_bool_false_iff. split.
  - intros [[_ H1] H2]. exists q. auto.
  - intros [q' [Hq [H1 H2]]]. injection Hq as <-. auto.
Qed.

(** The three ways a fee rate is refused. *)
Lemma feeRateNotSupported_true (r : number) :
  feeRateNotSupported r = true <->
  isFinite r = false \/
  exists q : Q, r = Fin q /\ (q < 1 \/ MAX_FEE_RATE < q).
Proof.
  unfold feeRateNotSupported, gtb.
  rewrite !orb_true_iff, negb_true_iff.
  destruct r as [q| | |]; simpl; try tauto.
  rewrite !Qlt_bool_iff. split.
  - intros [[H|H]|H]; [discriminate| |]; right; exists q; auto.
  - intros [H|[q' [Hq H]]]; [discriminate|]. injection Hq as <-. tauto.
Qed.

(* ================================================================== *)
(** ** Rounding to binary64 *)

Unset Implicit Arguments.

Lemma pow2_pos (z : Z) : 0 < pow2 z.
Proof. apply Qpower_0_lt. reflexivity. Qed.

Lemma pow2_add (a b : Z) : pow2 (a + b) == pow2 a * pow2 b.
Proof. apply Qpower_plus. discriminate. Qed.

Lemma pow2_le (a b : Z) : (a <= b)%Z -> pow2 a <= pow2 b.
Proof. intro H. apply Qpower_le_compat_l; [exact H|discriminate]. Qed.

Lemma pow2_lt_inv (a b : Z) : pow2 a < pow2 b -> (a < b)%Z.
Proof. intro H. apply (Qpower_lt_compat_l_inv 2); [exact H|reflexivity]. Qed.

Lemma pow2_Z (n : Z) : (0 <= n)%Z -> pow2 n == inject_Z (2 ^ n).
Proof. intro H. unfold pow2. now rewrite Zpower_Qpower. Qed.

Lemma pow2_sub (a b : Z) : pow2 (a - b) * pow2 b == pow2 a.
Proof. rewrite <- pow2_add. now replace (a - b + b)%Z with a by ring. Qed.

Lemma ilog2_spec (a : Q) :
  0 < a -> pow2 (ilog2 a) <= a /\ a < pow2 (ilog2 a + 1).
Proof.
  intro Ha. destruct a as [n d].
  assert (Hn : (0 < n)%Z).
  { unfold Qlt in Ha. simpl in Ha. lia. }
  unfold ilog2. cbn [Qnum Qden].
  set (ln := Z.log2 n). set (ld := Z.log2 (Zpos d)).
  destruct (Z.log2_spec n Hn) as [Hn1 Hn2]. fold ln in Hn1, Hn2.
  destruct (Z.log2_spec (Zpos d) (Pos2Z.is_pos d)) as [Hd1 Hd2].
  fold ld in Hd1, Hd2.
  assert (Hln : (0 <= ln)%Z) by apply Z.log2_nonneg.
  assert (Hld : (0 <= ld)%Z) by apply Z.log2_nonneg.
  set (A := n # d) in *.
  assert (HA : A * inject_Z (Zpos d) == inject_Z n).
  { unfold A. rewrite (Qmake_Qdiv n d). field.
    intro H. discriminate H. }
  assert (HD : 0 < inject_Z (Zpos d)) by reflexivity.
  rewrite Zle_Qle in Hn1, Hd1.
  rewrite Zlt_Qlt in Hn2, Hd2.
  rewrite <- pow2_Z in Hn1, Hn2, Hd1, Hd2 by lia.
  replace (Z.succ ln) with (ln + 1)%Z in Hn2 by lia.
  replace (Z.succ ld) with (ld + 1)%Z in Hd2 by lia.
  pose proof (pow2_pos (ln - ld)) as P0.
  pose proof (pow2_pos (ln - ld + 1)) as P1.
  pose proof (pow2_pos (ln - ld - 1)) as P2.
  pose proof (pow2_pos ld) as PL.
  assert (Hup : A < pow2 (ln - ld + 1)).
  { pose proof (pow2_sub (ln + 1) ld) as E.
    replace (ln + 1 - ld)%Z with (ln - ld + 1)%Z in E by ring.
    apply Qnot_le_lt. intro Hc.
    assert (pow2 (ln - ld + 1) * pow2 ld <= A * inject_Z (Zpos d)) by nra.
    lra. }
  assert (Hlow : pow2 (ln - ld - 1) <= A).
  { pose proof (pow2_sub ln (ld + 1)) as E.
    replace (ln - (ld + 1))%Z with (ln - ld - 1)%Z in E by ring.
    apply Qnot_lt_le. intro Hc.
    assert (A * inject_Z (Zpos d) < pow2 (ln - ld - 1) * pow2 (ld + 1)) by nra.
    lra. }
  destruct (Qle_bool (pow2 (ln - ld)) A) eqn:E.
  - apply Qle_bool_iff in E. split; assumption.
  - replace (ln - ld - 1 + 1)%Z with (ln - ld)%Z by ring.
    split; [exact Hlow|].
    apply Qnot_le_lt. intro Hc. apply Qle_bool_iff in Hc. congruence.
Qed.

Lemma ilog2_mono (x y : Q) : 0 < x -> x <= y -> (ilog2 x <= ilog2 y)%Z.
Proof.
  intros Hx Hxy.
  destruct (ilog2_spec x Hx) as [H1 _].
  destruct (ilog2_spec y) as [_ H2]; [lra|].
  assert (H : pow2 (ilog2 x) < pow2 (ilog2 y + 1)) by lra.
  apply pow2_lt_inv in H. lia.
Qed.

Lemma rne_bounds (t : Q) : (Qfloor t <= rne t <= Qfloor t + 1)%Z.
Proof.
  unfold rne. destruct (_ ?= _); [destruct (Z.even _)| |]; lia.
Qed.

Lemma rne_Z (z : Z) : rne (inject_Z z) = z.
Proof.
  unfold rne. rewrite Qfloor_Z.
  destruct (Qcompare_spec (inject_Z z - inject_Z z) (1 # 2)) as [C|C|C];
    [lra|reflexivity|lra].
Qed.

Lemma rne_comp (t t' : Q) : t == t' -> rne t = rne t'.
Proof.
  intro H. unfold rne. rewrite (Qfloor_comp _ _ H).
  assert (E : t - inject_Z (Qfloor t') == t' - inject_Z (Qfloor t'))
    by now rewrite H.
  now rewrite (Qcompare_comp _ _ E _ _ (Qeq_refl (1 # 2))).
Qed.

Lemma rne_mono (t t' : Q) : t <= t' -> (rne t <= rne t')%Z.
Proof.
  intro H.
  pose proof (Qfloor_resp_le _ _ H) as Hf.
  pose proof (rne_bounds t) as B. pose proof (rne_bounds t') as B'.
  destruct (Z.eq_dec (Qfloor t) (Qfloor t')) as [E|E]; [|lia].
  unfold rne in *. rewrite <- E in *.
  set (f := Qfloor t) in *.
  destruct (Qcompare_spec (t - inject_Z f) (1 # 2)) as [C|C|C];
    destruct (Qcompare_spec (t' - inject_Z f) (1 # 2)) as [C'|C'|C'];
    try destruct (Z.even f); try lia; lra.
Qed.

Lemma rne_le_Z (t : Q) (z : Z) : t <= inject_Z z -> (rne t <= z)%Z.
Proof. intro H. rewrite <- (rne_Z z). now apply rne_mono. Qed.

Lemma rne_ge_Z (t : Q) (z : Z) : inject_Z z <= t -> (z <= rne t)%Z.
Proof. intro H. rewrite <- (rne_Z z). now apply rne_mono. Qed.

Lemma div_pow2 (x : Q) (k : Z) : x / pow2 k * pow2 k == x.
Proof. field. pose proof (pow2_pos k). lra. Qed.

Lemma div_pow2_le (x y : Q) (k : Z) : x <= y -> x / pow2 k <= y / pow2 k.
Proof.
  intro H. pose proof (pow2_pos k) as P.
  apply Qle_shift_div_l; [exact P|]. now rewrite div_pow2.
Qed.

Lemma round_pos_nonneg (a : Q) : 0 <= a -> 0 <= round_pos a.
Proof.
  intro Ha. unfold round_pos. pose proof (pow2_pos (ulp_exp a)) as P.
  assert (0 <= a / pow2 (ulp_exp a)).
  { apply Qle_shift_div_l; [exact P|]. lra. }
  assert (H0 : (0 <= rne (a / pow2 (ulp_exp a)))%Z) by now apply rne_ge_Z.
  rewrite Zle_Qle in H0. change (inject_Z 0) with 0 in H0.
  apply Qmult_le_0_compat; lra.
Qed.

Lemma round_pos_mono (x y : Q) :
  0 < x -> x <= y -> round_pos x <= round_pos y.
Proof.
  intros Hx Hxy. assert (Hy : 0 < y) by lra.
  pose proof (ilog2_mono x y Hx Hxy) as He.
  unfold round_pos, ulp_exp.
  set (ex := ilog2 x) in *. set (ey := ilog2 y) in *.
  set (kx := Z.max (ex - 52) (-1074)). set (ky := Z.max (ey - 52) (-1074)).
  pose proof (pow2_pos kx) as Pkx. pose proof (pow2_pos ky) as Pky.
  destruct (Z.eq_dec kx ky) as [E|E].
  - rewrite <- E.
    pose proof (rne_mono _ _ (div_pow2_le x y kx Hxy)) as H.
    rewrite Zle_Qle in H. nra.
  - assert (Hk : (kx < ky)%Z) by lia.
    assert (Hky : ky = (ey - 52)%Z) by lia.
    assert (Hex : (ex + 1 <= ey)%Z) by lia.
    destruct (ilog2_spec x Hx) as [_ Hx2]. fold ex in Hx2.
    destruct (ilog2_spec y Hy) as [Hy1 _]. fold ey in Hy1.
    pose proof (pow2_le _ _ Hex) as Hp.
    (* upper bound for x *)
    assert (Hux : inject_Z (rne (x / pow2 kx)) * pow2 kx <= pow2 ey).
    { assert (H : (rne (x / pow2 kx) <= 2 ^ (ey - kx))%Z).
      { apply rne_le_Z. rewrite <- pow2_Z by lia.
        apply Qle_shift_div_r; [exact Pkx|]. rewrite pow2_sub. lra. }
      rewrite Zle_Qle, <- pow2_Z in H by lia.
      pose proof (pow2_sub ey kx). nra. }
    assert (Hly : pow2 ey <= inject_Z (rne (y / pow2 ky)) * pow2 ky).
    { assert (H : (2 ^ 52 <= rne (y / pow2 ky))%Z).
      { apply rne_ge_Z. rewrite <- pow2_Z by lia.
        apply Qle_shift_div_l; [exact Pky|].
        replace 52%Z with (ey - ky)%Z by lia. rewrite pow2_sub. lra. }
      rewrite Zle_Qle, <- pow2_Z in H by lia.
      pose proof (pow2_sub ey ky) as E2.
      replace (ey - ky)%Z with 52%Z in E2 by lia. nra. }
    lra.
Qed.

(** exactness on the grid *)
Lemma round_pos_exact (a : Q) (m : Z) :
  a / pow2 (ulp_exp a) == inject_Z m -> round_pos a == a.
Proof.
  intro H. unfold round_pos. rewrite (rne_comp _ _ H), rne_Z, <- H.
  apply div_pow2.
Qed.

Lemma round_pos_Z (z : Z) :
  (0 < z <= 2 ^ 53)%Z -> round_pos (inject_Z z) == inject_Z z.
Proof.
  intros [Hz1 Hz2].
  assert (Ha : 0 < inject_Z z).
  { change 0 with (inject_Z 0). now rewrite <- Zlt_Qlt. }
  destruct (ilog2_spec _ Ha) as [H1 H2].
  set (e := ilog2 (inject_Z z)) in *.
  assert (He0 : (0 <= e)%Z).
  { destruct (Z.le_gt_cases 0 e) as [|Hneg]; [assumption|].
    assert (Hp : pow2 (e + 1) <= pow2 0) by (apply pow2_le; lia).
    assert (H1z : 1 <= inject_Z z).
    { change 1 with (inject_Z 1). rewrite <- Zle_Qle. lia. }
    change (pow2 0) with 1 in Hp. lra. }
  assert (Hz : (2 ^ e <= z)%Z).
  { rewrite Zle_Qle, <- pow2_Z by lia. exact H1. }
  assert (He53 : (e <= 53)%Z).
  { destruct (Z.le_gt_cases e 53) as [|Hbig]; [assumption|].
    assert ((2 ^ 54 <= 2 ^ e)%Z) by (apply Z.pow_le_mono_r; lia).
    assert ((2 ^ 53 < 2 ^ 54)%Z) by reflexivity. lia. }
  unfold ulp_exp. fold e.
  destruct (Z.eq_dec e 53) as [E|E].
  - assert (Hzz : z = (2 ^ 53)%Z) by (rewrite E in Hz; lia).
    apply (round_pos_exact _ (2 ^ 52)). unfold ulp_exp. fold e.
    rewrite E, Hzz. reflexivity.
  - set (k := Z.max (e - 52) (-1074)).
    assert (Hk : (k <= 0)%Z) by lia.
    apply (round_pos_exact _ (z * 2 ^ (- k))). unfold ulp_exp. fold e k.
    rewrite inject_Z_mult, <- pow2_Z by lia.
    pose proof (pow2_pos k) as P.
    apply Qeq_sym.
    rewrite <- (div_pow2 (inject_Z z * pow2 (- k)) k) at 1.
    assert (E2 : pow2 (- k) * pow2 k == 1).
    { rewrite <- pow2_add. now replace (- k + k)%Z with 0%Z by ring. }
    field_simplify; [|lra|lra].
    field_simplify_eq; [|lra]. nra.
Qed.

(** [round64] does not tell equal rationals apart. *)
Lemma round64_comp (x y : Q) : x == y -> round64 x = round64 y.
Proof.
  intro H. unfold round64. now rewrite (Qred_complete _ _ H).
Qed.

Lemma round64_not_NaN (x : Q) : round64 x <> NaN.
Proof.
  unfold round64. destruct (_ ?= _); cbv zeta;
    try destruct (Qle_bool _ _); discriminate.
Qed.

(** Rounding keeps the order. *)
Lemma round64_mono (x y : Q) :
  x <= y -> (round64 x <=? round64 y)%num = true.
Proof.
  intro H. unfold round64.
  pose proof (Qred_correct x) as Ex. pose proof (Qred_correct y) as Ey.
  set (x' := Qred x) in *. set (y' := Qred y) in *.
  assert (H' : x' <= y') by (rewrite Ex, Ey; exact H).
  destruct (Qcompare_spec x' 0) as [Cx|Cx|Cx];
    destruct (Qcompare_spec y' 0) as [Cy|Cy|Cy];
    try (exfalso; lra); cbv zeta.
  - reflexivity.
  - pose proof (round_pos_nonneg y') as Hy.
    destruct (Qle_bool _ _); [reflexivity|].
    apply Qle_bool_iff. rewrite Qred_correct. lra.
  - pose proof (round_pos_nonneg (- x')) as Hx.
    destruct (Qle_bool _ _); [reflexivity|].
    apply Qle_bool_iff. rewrite Qred_correct. lra.
  - assert (Hm : round_pos (- y') <= round_pos (- x'))
      by (apply round_pos_mono; lra).
    destruct (Qle_bool (pow2 1024) (round_pos (- x'))) eqn:Bx;
      destruct (Qle_bool (pow2 1024) (round_pos (- y'))) eqn:By;
      try reflexivity.
    + apply Qle_bool_iff in By. apply Qle_bool_false_iff in Bx. lra.
    + apply Qle_bool_iff. rewrite !Qred_correct. lra.
  - pose proof (round_pos_nonneg (- x')) as Hx.
    pose proof (round_pos_nonneg y') as Hy.
    destruct (Qle_bool _ _), (Qle_bool _ _); try reflexivity.
    apply Qle_bool_iff. rewrite !Qred_correct. lra.
  - assert (Hm : round_pos x' <= round_pos y')
      by (apply round_pos_mono; lra).
    destruct (Qle_bool (pow2 1024) (round_pos x')) eqn:Bx;
      destruct (Qle_bool (pow2 1024) (round_pos y')) eqn:By;
      try reflexivity.
    + apply Qle_bool_iff in Bx. apply Qle_bool_false_iff in By. lra.
    + apply Qle_bool_iff. rewrite !Qred_correct. exact Hm.
Qed.

(** The integers up to 2^53 in magnitude are binary64 numbers. *)
Lemma round64_Z (z : Z) :
  (- 2 ^ 53 <= z <= 2 ^ 53)%Z -> round64 (inject_Z z) = of_Z z.
Proof.
  intro Hz. unfold round64, of_Z.
  assert (Er : Qred (inject_Z z) = inject_Z z).
  { apply Qcanon.Qred_identity. apply Z.gcd_1_r. }
  rewrite Er.
  assert (Hbig : forall w : Z, (0 < w <= 2 ^ 53)%Z ->
            Qle_bool (pow2 1024) (round_pos (inject_Z w)) = false).
  { intros w Hw. apply Qle_bool_false_iff.
    rewrite (round_pos_Z w Hw).
    assert (Hp : pow2 53 <= pow2 1024) by (apply pow2_le; lia).
    assert (Hp' : pow2 53 < pow2 54).
    { apply Qpower_lt_compat_l; [lia|reflexivity]. }
    assert (Hp'' : pow2 54 <= pow2 1024) by (apply pow2_le; lia).
    rewrite (pow2_Z 53) in Hp' by lia.
    destruct Hw as [_ Hw]. rewrite Zle_Qle in Hw. lra. }
  destruct (Qcompare_spec (inject_Z z) 0) as [C|C|C]; cbv zeta.
  - f_equal. assert (E0 : z = 0%Z) by (unfold Qeq in C; simpl in C; lia).
    now rewrite E0.
  - assert (C0 : (z < 0)%Z) by (unfold Qlt in C; simpl in C; lia).
    assert (Hw : (0 < - z <= 2 ^ 53)%Z) by lia.
    rewrite <- inject_Z_opp, (Hbig _ Hw). f_equal.
    transitivity (Qred (inject_Z z)); [|exact Er].
    apply Qred_complete.
    rewrite (round_pos_Z _ Hw), inject_Z_opp. ring.
  - assert (C0 : (0 < z)%Z) by (unfold Qlt in C; simpl in C; lia).
    assert (Hw : (0 < z <= 2 ^ 53)%Z) by lia.
    rewrite (Hbig _ Hw). f_equal.
    transitivity (Qred (inject_Z z)); [|exact Er].
    apply Qred_complete. apply (round_pos_Z _ Hw).
Qed.

Lemma round64_nonneg (x : Q) : 0 <= x -> (zero <=? round64 x)%num = true.
Proof.
  intro H. change zero with (of_Z 0).
  rewrite <- (round64_Z 0) by (split; discriminate).
  now apply round64_mono.
Qed.

Lemma round64_nonpos (x : Q) : x <= 0 -> (round64 x <=? zero)%num = true.
Proof.
  intro H. change zero with (of_Z 0).
  rewrite <- (round64_Z 0) by (split; discriminate).
  now apply round64_mono.
Qed.

(** [Math.ceil] keeps the order. *)
Lemma ceil_mono (a b : number) :
  (a <=? b)%num = true -> (ceil a <=? ceil b)%num = true.
Proof.
  destruct a as [x| | |], b as [y| | |]; simpl; try discriminate; auto.
  intro H. apply Qle_bool_iff in H. apply Qle_bool_iff.
  rewrite <- Zle_Qle. now apply Qceiling_resp_le.
Qed.

(** A difference is not negative when the first number is the larger. *)
Lemma sub_not_negative (a b : number) :
  (b <=? a)%num = true -> (a - b <? zero)%num = false.
Proof.
  destruct a as [x| | |], b as [y| | |]; simpl; try discriminate; auto.
  intro H. apply Qle_bool_iff in H.
  assert (Hd : 0 <= x + - y) by lra.
  pose proof (round64_nonneg _ Hd) as Hr.
  pose proof (round64_not_NaN (x + - y)) as Hn.
  destruct (round64 (x + - y)) as [q| | |].
  - unfold leb, zero in Hr. apply Qle_bool_iff in Hr.
    apply Qlt_bool_false_iff. exact Hr.
  - reflexivity.
  - discriminate Hr.
  - congruence.
Qed.

Set Implicit Arguments.

(* ================================================================== *)
(** ** The validators *)

Lemma validateFeeRate_Ok (r : number) :
  validateFeeRate r = Ok tt <-> SupportedFeeRate r.
Proof.
  rewrite <- feeRateNotSupported_false. unfold validateFeeRate.
  destruct (feeRateNotSupported r); split; congruence.
Qed.

Lemma validateFeeRate_Throw (r : number) (e : error) :
  validateFeeRate r = Throw e <->
  e = InvalidFeeRateError r /\ feeRateNotSupported r = true.
Proof.
  unfold validateFeeRate.
  destruct (feeRateNotSupported r); split.
  - intros [= <-]. auto.
  - intros [-> _]. reflexivity.
  - discriminate.
  - intros [_ H]. discriminate.
Qed.

Lemma checkValues_Ok (l : list (OutputWithValue Output)) :
  checkValues l = Ok tt <-> Forall (fun u => SupportedValue (value u)) l.
Proof.
  induction l as [|u l IH]; simpl.
  - split; auto.
  - destruct (valueNotSupported (value u)) eqn:E.
    + apply valueNotSupported_true in E. split; [discriminate|].
      intro H. inversion H; subst. contradiction.
    + apply valueNotSupported_false in E. rewrite IH. split.
      * intro H. now constructor.
      * intro H. now inversion H.
Qed.

(** [checkValues] reports the value of the first entry it refuses. *)
Lemma checkValues_Throw (l : list (OutputWithValue Output)) (e : error) :
  checkValues l = Throw e <->
  exists l1 u l2, l = l1 ++ u :: l2
    /\ Forall (fun u => SupportedValue (value u)) l1
    /\ ~ SupportedValue (value u)
    /\ e = InvalidValueError (value u).
Proof.
  induction l as [|u l IH]; simpl.
  - split; [discriminate|]. intros (l1 & u & l2 & H & _). now destruct l1.
  - destruct (valueNotSupported (value u)) eqn:E.
    + apply valueNotSupported_true in E. split.
      * intros [= <-]. exists [], u, l. repeat split; auto.
      * intros (l1 & u' & l2 & H & Hall & Hbad & ->).
        destruct l1 as [|a l1]; simpl in H; injection H as -> ->.
        -- reflexivity.
        -- inversion Hall; subst. contradiction.
    + apply valueNotSupported_false in E. rewrite IH. split.
      * intros (l1 & u' & l2 & -> & Hall & Hbad & ->).
        exists (u :: l1), u', l2. repeat split; auto.
      * intros (l1 & u' & l2 & H & Hall & Hbad & ->).
        destruct l1 as [|a l1]; simpl in H; injection H as -> ->.
        -- contradiction.
        -- exists l1, u', l2. inversion Hall; subst. repeat split; auto.
Qed.

Lemma validateOutputWithValues_Ok (l : list (OutputWithValue Output)) :
  validateOutputWithValues l = Ok tt <->
  l <> [] /\ Forall (fun u => SupportedValue (value u)) l.
Proof.
  unfold validateOutputWithValues. destruct l as [|u l].
  - simpl. split; [discriminate|]. intros [H _]. now elim H.
  - change (Nat.eqb (length (u :: l)) 0) with false. cbv iota.
    rewrite checkValues_Ok. split; [intro H; split; [discriminate|exact H]|tauto].
Qed.

Lemma validateOutputWithValues_Throw (l : list (OutputWithValue Output))
  (e : error) :
  validateOutputWithValues l = Throw e ->
  (l = [] /\ e = EmptyGroupError) \/
  (l <> [] /\ exists v, e = InvalidValueError v).
Proof.
  unfold validateOutputWithValues. destruct l as [|u l].
  - simpl. intros [= <-]. auto.
  - change (Nat.eqb (length (u :: l)) 0) with false. cbv iota.
    intro H. apply checkValues_Throw in H.
    destruct H as (l1 & u' & l2 & _ & _ & _ & ->).
    right. split; [discriminate|eauto].
Qed.

(** C5. [validateOutputWithValues] throws 'Empty group' exactly on the
    empty list; on a non-empty list it throws 'Input value ... not
    supported' exactly when some entry's value is not an integer of
    (0, 10^14], and then for the first such entry; it returns normally
    exactly on the non-empty lists whose values are all integers of
    (0, 10^14]. *)
Theorem validateOutputWithValues_spec (l : list (OutputWithValue Output)) :
  (validateOutputWithValues l = Throw EmptyGroupError <-> l = [])
  /\ (forall v : number,
        validateOutputWithValues l = Throw (InvalidValueError v) <->
        exists l1 u l2, l = l1 ++ u :: l2
          /\ Forall (fun u => SupportedValue (value u)) l1
          /\ ~ SupportedValue (value u) /\ v = value u)
  /\ ((exists v, validateOutputWithValues l = Throw (InvalidValueError v)) <->
      l <> [] /\ Exists (fun u => ~ SupportedValue (value u)) l)
  /\ (validateOutputWithValues l = Ok tt <->
      l <> [] /\ Forall (fun u => SupportedValue (value u)) l).
Proof.
  assert (Hv : forall v : number,
        validateOutputWithValues l = Throw (InvalidValueError v) <->
        exists l1 u l2, l = l1 ++ u :: l2
          /\ Forall (fun u => SupportedValue (value u)) l1
          /\ ~ SupportedValue (value u) /\ v = value u).
  { intro v. unfold validateOutputWithValues. destruct l as [|u l].
    - simpl. split; [discriminate|].
      intros (l1 & u & l2 & H & _). now destruct l1.
    - change (Nat.eqb (length (u :: l)) 0) with false. cbv iota.
      rewrite checkValues_Throw. split.
      + intros (l1 & u' & l2 & H & Hall & Hbad & [= ->]).
        exists l1, u', l2. auto.
      + intros (l1 & u' & l2 & H & Hall & Hbad & ->).
        exists l1, u', l2. auto. }
  split; [|split; [exact Hv|split]].
  - split.
    + intro H. apply validateOutputWithValues_Throw in H.
      destruct H as [[H _]|[_ [v H]]]; [exact H|discriminate].
    + intros ->. reflexivity.
  - split.
    + intros [v H]. apply Hv in H.
      destruct H as (l1 & u & l2 & -> & _ & Hbad & _). split.
      * now destruct l1.
      * apply Exists_app. right. now constructor.
    + intros [Hne Hex].
      destruct (validateOutputWithValues l) as [[]|e] eqn:E.
      * apply validateOutputWithValues_Ok in E. destruct E as [_ Hall].
        apply Exists_exists in Hex. destruct Hex as (u & Hin & Hbad).
        rewrite Forall_forall in Hall. elim Hbad. now apply Hall.
      * apply validateOutputWithValues_Throw in E.
        destruct E as [[E _]|[_ [v ->]]]; [contradiction|eauto].
  - apply validateOutputWithValues_Ok.
Qed.

(** C6. [validateFeeRate] throws 'Fee rate ... not supported' exactly when
    the rate is not finite, is below 1 or is above [MAX_FEE_RATE]; it
    returns normally exactly on the finite rates of [1, MAX_FEE_RATE];
    the rate 0.5 is refused. *)
Theorem validateFeeRate_spec (rate : number) :
  (validateFeeRate rate = Throw (InvalidFeeRateError rate) <->
     isFinite rate = false \/
     exists q : Q, rate = Fin q /\ (q < 1 \/ MAX_FEE_RATE < q))
  /\ (validateFeeRate rate = Ok tt <->
     exists q : Q, rate = Fin q /\ 1 <= q /\ q <= MAX_FEE_RATE)
  /\ (forall e, validateFeeRate rate = Throw e -> e = InvalidFeeRateError rate)
  /\ validateFeeRate (Fin (1 # 2)) = Throw (InvalidFeeRateError (Fin (1 # 2))).
Proof.
  repeat split.
  - intro H. apply validateFeeRate_Throw in H.
    now apply feeRateNotSupported_true.
  - intro H. apply validateFeeRate_Throw. split; [reflexivity|].
    now apply feeRateNotSupported_true.
  - apply validateFeeRate_Ok.
  - apply validateFeeRate_Ok.
  - intros e H. now apply validateFeeRate_Throw in H.
Qed.

Lemma dustLoop_Ok (rate : number) (l : list (OutputWithValue Output)) :
  forall i, dustLoop i l rate = Ok tt <-> NoDust rate l.
Proof.
  unfold NoDust.
  induction l as [|t l IH]; intro i; simpl.
  - split; auto.
  - destruct (isDust (output t) (value t) rate) eqn:E.
    + split; [discriminate|]. intro H. inversion H; subst. congruence.
    + rewrite IH. split; intro H; [now constructor|now inversion H].
Qed.

Lemma dustLoop_first (rate : number) (l1 l2 : list (OutputWithValue Output))
  (t : OutputWithValue Output) :
  NoDust rate l1 -> isDust (output t) (value t) rate = true ->
  forall i, dustLoop i (l1 ++ t :: l2) rate
            = Throw (DustTargetError (i + length l1)).
Proof.
  intros Hall Ht. induction Hall as [|a l1 Ha Hall IH]; intro i; simpl.
  - rewrite Ht. now rewrite Nat.add_0_r.
  - rewrite Ha, IH. do 2 f_equal. lia.
Qed.

Lemma dustLoop_Throw (rate : number) (l : list (OutputWithValue Output)) :
  forall i e, dustLoop i l rate = Throw e ->
  exists l1 t l2, l = l1 ++ t :: l2 /\ NoDust rate l1
    /\ isDust (output t) (value t) rate = true
    /\ e = DustTargetError (i + length l1).
Proof.
  induction l as [|a l IH]; intros i e; simpl.
  - discriminate.
  - destruct (isDust (output a) (value a) rate) eqn:E.
    + intros [= <-]. exists [], a, l. simpl. rewrite Nat.add_0_r.
      repeat split; auto. constructor.
    + intro H. apply IH in H. destruct H as (l1 & t & l2 & -> & Hall & Ht & ->).
      exists (a :: l1), t, l2. simpl. rewrite Nat.add_succ_r.
      repeat split; auto. now constructor.
Qed.

(** C7. [validateDust] throws 'Target #i is dusty' for the index [i] of
    the first target, in input order, that [isDust] classifies as dust at
    its value and the relay fee rate (the default one when none is given);
    the targets after it play no part; it returns normally exactly when no
    target is dust. *)
Theorem validateDust_first_dusty (relayFeeRate : option number) :
  let rate := orDefault relayFeeRate (Fin DUST_RELAY_FEE_RATE) in
  (forall l1 t l2,
      NoDust rate l1 -> isDust (output t) (value t) rate = true ->
      validateDust (l1 ++ t :: l2) relayFeeRate
      = Throw (DustTargetError (length l1)))
  /\ (forall targets e,
      validateDust targets relayFeeRate = Throw e ->
      exists l1 t l2, targets = l1 ++ t :: l2 /\ NoDust rate l1
        /\ isDust (output t) (value t) rate = true
        /\ e = DustTargetError (length l1))
  /\ (forall targets,
      validateDust targets relayFeeRate = Ok tt <-> NoDust rate targets).
Proof.
  intro rate. unfold validateDust. fold rate. repeat split.
  - intros l1 t l2 Hall Ht. now rewrite dustLoop_first.
  - intros targets e H. apply dustLoop_Throw in H. exact H.
  - now apply dustLoop_Ok.
  - now apply dustLoop_Ok.
Qed.

(** C3. [validatedFeeAndVsize] takes the fee as the sum of the utxo values
    minus the sum of the target values and the virtual size from [vsize]
    on the two lists of outputs; it throws 'Final fee rate ... lower than
    required ...' exactly when fee / vsize < feeRate, the quotient being
    the program's binary64 one; otherwise it throws what [validateFeeRate]
    throws on fee / vsize (a rate that is not finite, below 1 or above the
    maximum); otherwise it returns [{ fee, vsize }]. *)
Theorem validatedFeeAndVsize_spec (utxos targets : list (OutputWithValue Output))
  (feeRate : number) :
  let fee := (sumValues utxos - sumValues targets)%num in
  let vsizeResult := of_Z (vsize (map output utxos) (map output targets)) in
  let finalFeeRate := (fee / vsizeResult)%num in
  ((exists a b, validatedFeeAndVsize utxos targets feeRate
                = Throw (InsufficientFeeError a b)) <->
     (finalFeeRate <? feeRate)%num = true)
  /\ ((finalFeeRate <? feeRate)%num = true ->
      validatedFeeAndVsize utxos targets feeRate
      = Throw (InsufficientFeeError finalFeeRate feeRate))
  /\ ((exists r, validatedFeeAndVsize utxos targets feeRate
                = Throw (InvalidFeeRateError r)) <->
     (finalFeeRate <? feeRate)%num = false /\
     (isFinite finalFeeRate = false \/
      exists q : Q, finalFeeRate = Fin q /\ (q < 1 \/ MAX_FEE_RATE < q)))
  /\ (forall e, validatedFeeAndVsize utxos targets feeRate = Throw e ->
      e = InsufficientFeeError finalFeeRate feeRate \/
      e = InvalidFeeRateError finalFeeRate)
  /\ ((exists r, validatedFeeAndVsize utxos targets feeRate = Ok r) <->
     (finalFeeRate <? feeRate)%num = false /\
     exists q : Q, finalFeeRate = Fin q /\ 1 <= q /\ q <= MAX_FEE_RATE)
  /\ (forall r, validatedFeeAndVsize utxos targets feeRate = Ok r ->
      r = {| fv_fee := fee; fv_vsize := vsizeResult |}).
Proof.
  intros fee vsizeResult finalFeeRate.
  unfold validatedFeeAndVsize. fold fee vsizeResult finalFeeRate.
  pose proof (feeRateNotSupported_true finalFeeRate) as Hbad.
  pose proof (feeRateNotSupported_false finalFeeRate) as Hgood.
  unfold SupportedFeeRate in Hgood. unfold validateFeeRate.
  destruct (finalFeeRate <? feeRate)%num;
    [|destruct (feeRateNotSupported finalFeeRate); simpl];
    repeat split; intros;
    repeat match goal with
           | H : exists _, Throw _ = _ |- _ => destruct H
           | H : exists _, Ok _ = _ |- _ => destruct H
           | H : _ = _ /\ _ |- _ => destruct H
           end;
    try discriminate; try (now eauto);
    try (apply Hbad; reflexivity); try (apply Hgood; reflexivity);
    try (now left; congruence); try (now right; congruence);
    try congruence;
    match goal with
    | H : exists a b : number, _ |- _ => destruct H as [a [b H]]; discriminate
    | H : exists q : Q, _ |- _ => apply Hgood in H; discriminate
    | H : _ \/ _ |- _ => apply Hbad in H; discriminate
    end.
Qed.

(* ================================================================== *)
(** ** Filtering with a callback that may throw *)

Lemma filterM_pure {A} (f : A -> result bool) (p : A -> bool) (l : list A) :
  (forall x, In x l -> f x = Ok (p x)) -> filterM f l = Ok (filter p l).
Proof.
  induction l as [|x l IH]; intro H; simpl.
  - reflexivity.
  - rewrite (H x (or_introl eq_refl)). simpl.
    rewrite IH by (intros y Hy; apply H; now right).
    reflexivity.
Qed.

Lemma filterM_Ok {A} (f : A -> result bool) (p : A -> bool) (l l' : list A) :
  (forall x b, f x = Ok b -> b = p x) ->
  filterM f l = Ok l' -> l' = filter p l.
Proof.
  intro Hp. revert l'. induction l as [|x l IH]; intros l'; simpl.
  - now intros [= <-].
  - destruct (f x) as [b|e] eqn:Ex; simpl; [|discriminate].
    destruct (filterM f l) as [r|e]; simpl; [|discriminate].
    intros [= <-]. rewrite <- (Hp x b Ex), <- (IH r eq_refl). reflexivity.
Qed.

Lemma filterM_Throw {A} (f : A -> result bool) (l : list A) (e : error) :
  filterM f l = Throw e -> exists x, In x l /\ f x = Throw e.
Proof.
  induction l as [|x l IH]; simpl.
  - discriminate.
  - destruct (f x) as [b|e'] eqn:Ex; simpl.
    + destruct (filterM f l) as [r|e'']; simpl; [discriminate|].
      intros [= ->]. destruct (IH eq_refl) as (y & Hy & Hf).
      exists y. auto.
    + intros [= ->]. exists x. auto.
Qed.

(** A filter that keeps the length keeps the list. *)
Lemma filter_same_length {A} (p : A -> bool) (l : list A) :
  length (filter p l) = length l -> filter p l = l.
Proof.
  induction l as [|x l IH]; simpl; [reflexivity|].
  destruct (p x); simpl; intro H.
  - f_equal. apply IH. lia.
  - pose proof (filter_length_le p l). lia.
Qed.

Lemma filter_Forall {A} (P : A -> Prop) (p : A -> bool) (l : list A) :
  Forall P l -> Forall P (filter p l).
Proof.
  rewrite !Forall_forall. intros H x Hx. apply filter_In in Hx. now apply H.
Qed.

(* ================================================================== *)
(** ** Sums of values *)

Lemma add_Z (a b : Z) :
  (- 2 ^ 53 <= a + b <= 2 ^ 53)%Z -> (of_Z a + of_Z b)%num = of_Z (a + b).
Proof.
  intro H. unfold of_Z, add. rewrite <- inject_Z_plus.
  now apply round64_Z.
Qed.

Lemma sub_Z (a b : Z) :
  (- 2 ^ 53 <= a - b <= 2 ^ 53)%Z -> (of_Z a - of_Z b)%num = of_Z (a - b).
Proof.
  intro H. unfold of_Z, sub, neg, add.
  rewrite <- inject_Z_opp, <- inject_Z_plus. now apply round64_Z.
Qed.

(** A finite result of rounding that is a whole number is that whole
    number itself. *)
Lemma round64_Fin_Z (x q : Q) (z : Z) :
  round64 x = Fin q -> q == inject_Z z -> q = inject_Z z.
Proof.
  assert (Ez : Qred (inject_Z z) = inject_Z z).
  { apply Qcanon.Qred_identity. apply Z.gcd_1_r. }
  assert (Hred : forall r, Fin (Qred r) = Fin q -> q == inject_Z z ->
                           q = inject_Z z).
  { intros r E H. assert (E' : q = Qred r) by congruence.
    rewrite E' in H |- *. rewrite <- Ez. apply Qred_complete.
    now rewrite <- H, Qred_correct. }
  unfold round64. destruct (_ ?= _); cbv zeta.
  - intros E H. assert (E' : q = 0) by congruence.
    rewrite E' in H |- *.
    assert (E0 : z = 0%Z) by (unfold Qeq in H; simpl in H; lia).
    now rewrite E0.
  - destruct (Qle_bool _ _); [discriminate|]. apply Hred.
  - destruct (Qle_bool _ _); [discriminate|]. apply Hred.
Qed.

(** The total of supported values is a whole number, between the number
    of entries and 10^14 times it. *)
Lemma totalValue_supported (l : list (OutputWithValue Output)) :
  Forall (fun u => SupportedValue (value u)) l ->
  exists s : Z,
    totalValue l == inject_Z s
    /\ (Z.of_nat (length l) <= s <= Z.of_nat (length l) * 10 ^ 14)%Z.
Proof.
  induction 1 as [|u l [v [Hv Hb]] _ (s & Hs & Hsb)].
  - exists 0%Z. split; [reflexivity|simpl; lia].
  - exists (v + s)%Z. split.
    + cbn [totalValue fold_right]. fold (totalValue l).
      destruct (value u) as [qv| | |]; simpl in Hv; try contradiction.
      cbn [exactValue]. now rewrite Hv, Hs, inject_Z_plus.
    + change (length (u :: l)) with (S (length l)). lia.
Qed.

Lemma fold_values_exact (l : list (OutputWithValue Output)) :
  Forall (fun u => SupportedValue (value u)) l ->
  forall a s : Z,
    (0 <= a)%Z -> totalValue l == inject_Z s -> (a + s <= 2 ^ 53)%Z ->
    fold_left (fun a x => (a + value x)%num) l (of_Z a) = of_Z (a + s).
Proof.
  induction 1 as [|u l [v [Hv Hb]] Hall IH]; intros a s Ha Hs Hbound.
  - cbn [totalValue fold_right] in Hs.
    assert (E0 : s = 0%Z) by (unfold Qeq in Hs; simpl in Hs; lia).
    rewrite E0. now rewrite Z.add_0_r.
  - destruct (totalValue_supported Hall) as (s' & Hs' & Hsb).
    cbn [totalValue fold_right] in Hs. fold (totalValue l) in Hs.
    destruct (value u) as [qv| | |] eqn:Ev; simpl in Hv; try contradiction.
    cbn [exactValue] in Hs.
    assert (Es : s = (v + s')%Z).
    { apply inject_Z_injective. rewrite <- Hs, Hv, Hs', inject_Z_plus.
      reflexivity. }
    cbn [fold_left]. rewrite Ev.
    assert (Eadd : (of_Z a + Fin qv)%num = of_Z (a + v)).
    { unfold of_Z, add.
      rewrite (round64_comp (inject_Z a + qv) (inject_Z (a + v)))
        by (rewrite Hv, inject_Z_plus; reflexivity).
      apply round64_Z. lia. }
    rewrite Eadd, (IH (a + v)%Z s') by (assumption || lia).
    f_equal. lia.
Qed.

(** Below 2^53 the sum that [reduce] computes is the exact total. *)
Lemma sumValues_exact (l : list (OutputWithValue Output)) (s : Z) :
  Forall (fun u => SupportedValue (value u)) l ->
  totalValue l == inject_Z s -> (s <= 2 ^ 53)%Z ->
  sumValues l = of_Z s.
Proof.
  intros Hall Hs Hb. unfold sumValues. change zero with (of_Z 0).
  apply (@fold_values_exact l Hall 0%Z s); [lia|exact Hs|lia].
Qed.

Lemma eqv_of_Z_Fin (x : number) (z : Z) :
  eqv x (of_Z z) -> exists q, x = Fin q /\ q == inject_Z z.
Proof.
  destruct x as [q| | |]; simpl; try contradiction. intro H. now exists q.
Qed.

(* ================================================================== *)
(** ** The fee of a set of inputs *)

Lemma feeFor_Fin (remainder : Output) (f : Q)
  (xs : list (OutputWithValue Output)) :
  feeFor remainder (Fin f) xs
  = ceil (round64 (f * inject_Z (vsize (map output xs) [remainder]))).
Proof. reflexivity. Qed.

Lemma vsize_filter_le (Hmono : VsizeMonotone) (p : OutputWithValue Output -> bool)
  (outputs : list Output) (l : list (OutputWithValue Output)) :
  forall pre : list Output,
    (vsize (pre ++ map output (filter p l)) outputs
     <= vsize (pre ++ map output l) outputs)%Z.
Proof.
  induction l as [|x l IH]; intro pre; simpl.
  - lia.
  - destruct (p x); simpl.
    + specialize (IH (pre ++ [output x])).
      now rewrite <- !app_assoc in IH.
    + specialize (IH pre).
      pose proof (Hmono pre (map output l) (output x) outputs). lia.
Qed.

(** Removing inputs does not raise the fee. *)
Lemma feeFor_filter_le (Hmono : VsizeMonotone) (remainder : Output) (f : Q)
  (p : OutputWithValue Output -> bool) (l : list (OutputWithValue Output)) :
  0 <= f ->
  (feeFor remainder (Fin f) (filter p l) <=? feeFor remainder (Fin f) l)%num
  = true.
Proof.
  intro Hf. rewrite !feeFor_Fin. apply ceil_mono, round64_mono.
  pose proof (vsize_filter_le Hmono p [remainder] l []) as H. simpl in H.
  rewrite Zle_Qle in H.
  rewrite !(Qmult_comm f). now apply Qmult_le_compat_r.
Qed.

Lemma marginalFee_nonneg (Hmono : VsizeMonotone)
  (utxos : list (OutputWithValue Output)) (remainder : Output)
  (feeRate : number) (u : OutputWithValue Output) :
  SupportedFeeRate feeRate ->
  (marginalFee utxos remainder feeRate u <? zero)%num = false
  /\ (feeFor remainder feeRate utxos
      >=? feeFor remainder feeRate (filter (fun x => neq_ref x u) utxos))%num
     = true.
Proof.
  intros (f & -> & Hf1 & _). unfold marginalFee, geb.
  assert (Hf : 0 <= f) by lra.
  pose proof (feeFor_filter_le Hmono remainder (fun x => neq_ref x u) utxos Hf)
    as H.
  split; [now apply sub_not_negative|exact H].
Qed.

Lemma keepUtxo_worthSpending (utxos : list (OutputWithValue Output))
  (remainder : Output) (feeRate : number) (u : OutputWithValue Output) (b : bool) :
  keepUtxo utxos remainder feeRate u = Ok b ->
  b = worthSpending utxos remainder feeRate u.
Proof.
  unfold keepUtxo, worthSpending.
  change (feeContribution utxos remainder feeRate u)
    with (marginalFee utxos remainder feeRate u).
  destruct (marginalFee utxos remainder feeRate u <? zero)%num;
    [discriminate|now intros [= <-]].
Qed.

Lemma keepUtxo_total (Hmono : VsizeMonotone)
  (utxos : list (OutputWithValue Output)) (remainder : Output)
  (feeRate : number) (u : OutputWithValue Output) :
  SupportedFeeRate feeRate ->
  keepUtxo utxos remainder feeRate u
  = Ok (worthSpending utxos remainder feeRate u).
Proof.
  intro Hfr. unfold keepUtxo, worthSpending.
  change (feeContribution utxos remainder feeRate u)
    with (marginalFee utxos remainder feeRate u).
  now rewrite (proj1 (marginalFee_nonneg Hmono utxos remainder u Hfr)).
Qed.

Lemma validUtxos_Ok (utxos valid : list (OutputWithValue Output))
  (remainder : Output) (feeRate : number) :
  validUtxos utxos remainder feeRate = Ok valid ->
  valid = filter (worthSpending utxos remainder feeRate) utxos.
Proof.
  apply filterM_Ok. intros x b. apply keepUtxo_worthSpending.
Qed.

Lemma validUtxos_total (Hmono : VsizeMonotone)
  (utxos : list (OutputWithValue Output)) (remainder : Output)
  (feeRate : number) :
  SupportedFeeRate feeRate ->
  validUtxos utxos remainder feeRate
  = Ok (filter (worthSpending utxos remainder feeRate) utxos).
Proof.
  intro Hfr. apply filterM_pure. intros x _. now apply keepUtxo_total.
Qed.

(** What a call that returns a selection went through. *)
Lemma maxFunds_Some_inv (utxos : list (OutputWithValue Output))
  (remainder : Output) (feeRate : number) (dustRelayFeeRate : option number)
  (r : Selection Output) :
  maxFunds utxos remainder feeRate dustRelayFeeRate = Ok (Some r) ->
  let valid := filter (worthSpending utxos remainder feeRate) utxos in
  let targets := [ {| oid := freshOid utxos; output := remainder;
                      value := remainderValue remainder feeRate valid |} ] in
  validateOutputWithValues utxos = Ok tt
  /\ validateFeeRate feeRate = Ok tt
  /\ validateFeeRate (orDefault dustRelayFeeRate (Fin DUST_RELAY_FEE_RATE)) = Ok tt
  /\ validUtxos utxos remainder feeRate = Ok valid
  /\ isDust remainder (remainderValue remainder feeRate valid)
            (orDefault dustRelayFeeRate (Fin DUST_RELAY_FEE_RATE)) = false
  /\ exists fv, validatedFeeAndVsize valid targets feeRate = Ok fv
  /\ r = {| sel_utxos_ref :=
              if Nat.eqb (length utxos) (length valid)
              then CallerArray else FilteredArray;
            sel_utxos :=
              if Nat.eqb (length utxos) (length valid) then utxos else valid;
            sel_targets := targets;
            sel_fee := fv_fee fv;
            sel_vsize := fv_vsize fv |}.
Proof.
  unfold maxFunds.
  destruct (validateOutputWithValues utxos) as [[]|e]; simpl; [|discriminate].
  destruct (validateFeeRate feeRate) as [[]|e]; simpl; [|discriminate].
  destruct (validateFeeRate _) as [[]|e]; simpl; [|discriminate].
  unfold select.
  destruct (validUtxos utxos remainder feeRate) as [valid|e] eqn:Ev; simpl;
    [|discriminate].
  apply validUtxos_Ok in Ev. subst valid.
  destruct (isDust remainder _ _); simpl; [discriminate|].
  destruct (validatedFeeAndVsize _ _ feeRate) as [fv|e]; simpl; [|discriminate].
  intros [= <-]. repeat split; eauto.
Qed.

(** The returned list has the content of the retained one. *)
Lemma returned_utxos_content {A} (p : A -> bool) (l : list A) :
  (if Nat.eqb (length l) (length (filter p l)) then l else filter p l)
  = filter p l.
Proof.
  destruct (Nat.eqb (length l) (length (filter p l))) eqn:E; [|reflexivity].
  apply Nat.eqb_eq in E. symmetry. now apply filter_same_length.
Qed.

Lemma validatedFeeAndVsize_Ok (utxos targets : list (OutputWithValue Output))
  (feeRate : number) (fv : FeeAndVsize) :
  validatedFeeAndVsize utxos targets feeRate = Ok fv ->
  let fee := (sumValues utxos - sumValues targets)%num in
  let vsizeResult := of_Z (vsize (map output utxos) (map output targets)) in
  fv = {| fv_fee := fee; fv_vsize := vsizeResult |}
  /\ (fee / vsizeResult <? feeRate)%num = false
  /\ SupportedFeeRate (fee / vsizeResult)%num.
Proof.
  unfold validatedFeeAndVsize. cbv zeta.
  destruct (_ <? feeRate)%num; [discriminate|].
  destruct (validateFeeRate _) as [[]|e] eqn:E; simpl; [|discriminate].
  intros [= <-]. apply validateFeeRate_Ok in E. auto.
Qed.

Lemma validatedFeeAndVsize_Throw (utxos targets : list (OutputWithValue Output))
  (feeRate : number) (e : error) :
  validatedFeeAndVsize utxos targets feeRate = Throw e ->
  (exists r, e = InvalidFeeRateError r)
  \/ (exists a b, e = InsufficientFeeError a b).
Proof.
  unfold validatedFeeAndVsize. cbv zeta.
  destruct (_ <? feeRate)%num; [intros [= <-]; eauto|].
  destruct (validateFeeRate _) as [[]|e'] eqn:E; simpl; [discriminate|].
  intros [= <-]. apply validateFeeRate_Throw in E. destruct E as [-> _]. eauto.
Qed.

(** Every error [maxFunds] throws besides the guard's own. *)
Lemma maxFunds_Throw (utxos : list (OutputWithValue Output))
  (remainder : Output) (feeRate : number) (dustRelayFeeRate : option number)
  (e : error) :
  maxFunds utxos remainder feeRate dustRelayFeeRate = Throw e ->
  validateOutputWithValues utxos = Throw e
  \/ (exists r, e = InvalidFeeRateError r)
  \/ (exists a b, e = InsufficientFeeError a b)
  \/ (validateFeeRate feeRate = Ok tt
      /\ validUtxos utxos remainder feeRate = Throw e).
Proof.
  unfold maxFunds.
  destruct (validateOutputWithValues utxos) as [[]|e1]; simpl;
    [|intros [= ->]; auto].
  destruct (validateFeeRate feeRate) as [[]|e1] eqn:E1; simpl.
  2:{ intros [= <-]. apply validateFeeRate_Throw in E1.
      destruct E1 as [-> _]. eauto. }
  destruct (validateFeeRate (orDefault dustRelayFeeRate _))
    as [[]|e2] eqn:E2; simpl.
  2:{ intros [= <-]. apply validateFeeRate_Throw in E2.
      destruct E2 as [-> _]. eauto. }
  unfold select.
  destruct (validUtxos utxos remainder feeRate) as [valid|e3]; simpl;
    [|intros [= ->]; auto].
  destruct (isDust remainder _ _); simpl; [discriminate|].
  destruct (validatedFeeAndVsize valid _ feeRate) as [fv|e4] eqn:E4; simpl;
    [discriminate|].
  intros [= <-]. apply validatedFeeAndVsize_Throw in E4.
  destruct E4 as [E4|E4]; auto.
Qed.

(* ================================================================== *)
(** ** The sweep selector *)

(** C10. When the size estimator does not grow as an input is removed,
    the guard [if (feeContribution < 0) throw] of [maxFunds] never fires:
    with a fee rate that passes [validateFeeRate], the fee of the full set
    is at least the fee of the set without any one utxo, so every
    contribution is non-negative, the filter callback returns normally,
    and no call of [maxFunds] throws 'feeContribution < 0'. *)
Theorem feeContribution_guard_unreachable
  (utxos : list (OutputWithValue Output)) (remainder : Output)
  (feeRate : number) :
  VsizeMonotone ->
  (validateFeeRate feeRate = Ok tt ->
   forall u : OutputWithValue Output,
     (feeFor remainder feeRate utxos
      >=? feeFor remainder feeRate (filter (fun x => neq_ref x u) utxos))%num
     = true
     /\ (feeContribution utxos remainder feeRate u <? zero)%num = false
     /\ keepUtxo utxos remainder feeRate u <> Throw NegativeFeeContribution)
  /\ (validateFeeRate feeRate = Ok tt ->
      exists valid, validUtxos utxos remainder feeRate = Ok valid)
  /\ (forall dustRelayFeeRate,
      maxFunds utxos remainder feeRate dustRelayFeeRate
      <> Throw NegativeFeeContribution).
Proof.
  intro Hmono. split; [|split].
  - intros Hfr u. apply validateFeeRate_Ok in Hfr.
    destruct (marginalFee_nonneg Hmono utxos remainder u Hfr) as [H1 H2].
    split; [exact H2|split; [exact H1|]].
    rewrite (keepUtxo_total Hmono utxos remainder u Hfr). discriminate.
  - intro Hfr. apply validateFeeRate_Ok in Hfr.
    rewrite (validUtxos_total Hmono utxos remainder Hfr). eauto.
  - intros d H. apply maxFunds_Throw in H.
    destruct H as [H|[[r H]|[(a & b & H)|[Hfr H]]]]; try discriminate.
    + apply validateOutputWithValues_Throw in H.
      destruct H as [[_ H]|[_ [v H]]]; discriminate.
    + apply validateFeeRate_Ok in Hfr.
      rewrite (validUtxos_total Hmono utxos remainder Hfr) in H. discriminate.
Qed.

(** C2. The utxos [maxFunds] retains are the subsequence of the input
    whose value exceeds their marginal fee contribution, the fee of the
    full set minus the fee of the set without that utxo, each fee being
    the ceiling of the fee rate times the virtual size against the single
    recipient, product and difference being the program's binary64 ones:
    this is what the filter yields whenever it returns, it does return
    for a valid fee rate and a monotone size estimator, and no returned
    selection holds a utxo whose value does not exceed its marginal fee
    contribution. *)
Theorem maxFunds_retains_worth_spending
  (utxos : list (OutputWithValue Output)) (remainder : Output)
  (feeRate : number) :
  let marginal u :=
    (ceil (feeRate * of_Z (vsize (map output utxos) [remainder]))
     - ceil (feeRate
             * of_Z (vsize (map output
                              (filter (fun x => neq_ref x u) utxos))
                           [remainder])))%num in
  let retained := filter (fun u => (value u >? marginal u)%num) utxos in
  (forall valid,
      validUtxos utxos remainder feeRate = Ok valid -> valid = retained)
  /\ (VsizeMonotone -> validateFeeRate feeRate = Ok tt ->
      validUtxos utxos remainder feeRate = Ok retained)
  /\ (forall dustRelayFeeRate r,
      maxFunds utxos remainder feeRate dustRelayFeeRate = Ok (Some r) ->
      sel_utxos r = retained
      /\ Forall (fun u => (value u >? marginal u)%num = true) (sel_utxos r)
      /\ forall u, (value u >? marginal u)%num = false -> ~ In u (sel_utxos r)).
Proof.
  intros marginal retained.
  change retained with (filter (worthSpending utxos remainder feeRate) utxos).
  split; [|split].
  - intro valid. apply validUtxos_Ok.
  - intros Hmono Hfr. apply validateFeeRate_Ok in Hfr.
    now apply validUtxos_total.
  - intros d r H. apply maxFunds_Some_inv in H.
    destruct H as (_ & _ & _ & _ & _ & fv & _ & ->). simpl.
    rewrite returned_utxos_content. split; [reflexivity|split].
    + apply Forall_forall. intros u Hu. apply filter_In in Hu. apply Hu.
    + intros u Hu Hin. apply filter_In in Hin. destruct Hin as [_ Hin].
      unfold worthSpending, marginalFee, feeFor in Hin.
      fold (marginal u) in Hin. congruence.
Qed.

(** C8. When [maxFunds] returns a selection and the retained utxos are all
    of the caller's, the [utxos] field is the caller's array itself; when
    some utxo was pruned, it is the array the filter made, holding the
    retained subsequence. *)
Theorem maxFunds_same_array (utxos : list (OutputWithValue Output))
  (remainder : Output) (feeRate : number) (dustRelayFeeRate : option number)
  (r : Selection Output) :
  maxFunds utxos remainder feeRate dustRelayFeeRate = Ok (Some r) ->
  exists valid,
    validUtxos utxos remainder feeRate = Ok valid
    /\ (valid = utxos ->
        sel_utxos_ref r = CallerArray /\ sel_utxos r = utxos)
    /\ (valid <> utxos ->
        sel_utxos_ref r = FilteredArray /\ sel_utxos r = valid
        /\ (length valid < length utxos)%nat).
Proof.
  intro H. apply maxFunds_Some_inv in H.
  destruct H as (_ & _ & _ & Hv & _ & fv & _ & ->).
  eexists. split; [exact Hv|]. simpl. split.
  - intro E. rewrite E, Nat.eqb_refl. auto.
  - intro Hne.
    destruct (Nat.eqb _ _) eqn:E.
    + apply Nat.eqb_eq in E. symmetry in E.
      apply filter_same_length in E. contradiction.
    + apply Nat.eqb_neq in E.
      pose proof (filter_length_le (worthSpending utxos remainder feeRate) utxos).
      repeat split; auto. lia.
Qed.

(** C1 (amended). For every selection [maxFunds] returns, the fee is the
    difference, computed in binary64, of the sum of the values of the
    returned utxos and the sum of the values of the returned targets, both
    computed in binary64, and the binary64 quotient of the fee by the
    returned virtual size is at least the requested fee rate. When the
    values of the returned utxos total at most 2^53 and the target values
    lie between 0 and 2^53, the fee is exactly the integer difference of
    the two totals. *)
Theorem maxFunds_fee_invariant (utxos : list (OutputWithValue Output))
  (remainder : Output) (feeRate : number) (dustRelayFeeRate : option number)
  (r : Selection Output) :
  maxFunds utxos remainder feeRate dustRelayFeeRate = Ok (Some r) ->
  sel_fee r = (sumValues (sel_utxos r) - sumValues (sel_targets r))%num
  /\ (sel_fee r / sel_vsize r >=? feeRate)%num = true
  /\ (totalValue (sel_utxos r) <= inject_Z (2 ^ 53) ->
      Forall (fun t => (zero <=? value t)%num = true
                       /\ (value t <=? of_Z (2 ^ 53))%num = true)
             (sel_targets r) ->
      exists su st : Z,
        totalValue (sel_utxos r) == inject_Z su
        /\ totalValue (sel_targets r) == inject_Z st
        /\ sel_fee r = of_Z (su - st)).
Proof.
  intro H. apply maxFunds_Some_inv in H.
  destruct H as (Hvo & Hfr & _ & _ & _ & fv & Hfv & ->).
  cbn [sel_fee sel_vsize sel_utxos sel_targets].
  rewrite returned_utxos_content.
  set (valid := filter (worthSpending utxos remainder feeRate) utxos) in *.
  apply validatedFeeAndVsize_Ok in Hfv. destruct Hfv as (-> & Hlt & Hsup).
  cbn [fv_fee fv_vsize].
  apply validateFeeRate_Ok in Hfr. destruct Hfr as (f & -> & Hf1 & _).
  split; [reflexivity|split].
  - destruct Hsup as (q & Hq & Hq1 & _).
    unfold geb. rewrite Hq in Hlt |- *. unfold ltb in Hlt. unfold leb.
    apply Qlt_bool_false_iff in Hlt. now apply Qle_bool_iff.
  - intros Htot Htargets.
    apply validateOutputWithValues_Ok in Hvo. destruct Hvo as [_ Hall].
    pose proof (filter_Forall (worthSpending utxos remainder (Fin f)) Hall)
      as Hvalid. fold valid in Hvalid.
    destruct (totalValue_supported Hvalid) as (su & Hsu & Hsub).
    assert (Hsu53 : (su <= 2 ^ 53)%Z).
    { rewrite Zle_Qle, <- Hsu. exact Htot. }
    pose proof (sumValues_exact Hvalid Hsu Hsu53) as Esum.
    inversion Htargets as [|t ts [Hlow Hhigh] _ Et]; subst t ts.
    cbn [value] in Hlow, Hhigh.
    (* the recipient value is a whole number of [0, 2^53] *)
    assert (Hrv : exists w : Z,
               remainderValue remainder (Fin f) valid = of_Z w
               /\ (0 <= w <= 2 ^ 53)%Z).
    { set (X := round64 (f * inject_Z (vsize (map output valid) [remainder]))).
      assert (Erv : remainderValue remainder (Fin f) valid
                    = (of_Z su - ceil X)%num).
      { unfold remainderValue, validFee. now rewrite feeFor_Fin, Esum. }
      rewrite Erv in Hlow, Hhigh |- *.
      pose proof (round64_not_NaN
                    (f * inject_Z (vsize (map output valid) [remainder])))
        as Hnn. fold X in Hnn.
      destruct X as [p| | |];
        [|discriminate Hlow|discriminate Hhigh|congruence].
      change (ceil (Fin p)) with (of_Z (Qceiling p)) in *.
      set (c := Qceiling p) in *.
      assert (Esub : (of_Z su - of_Z c)%num = round64 (inject_Z (su - c))).
      { unfold of_Z, sub, neg, add. apply round64_comp.
        unfold Z.sub. now rewrite inject_Z_plus, inject_Z_opp. }
      rewrite Esub in Hlow, Hhigh |- *.
      destruct (Z_le_gt_dec (su - c) (2 ^ 53)) as [Hle|Hgt].
      - destruct (Z_le_gt_dec (- 2 ^ 53) (su - c)) as [Hge|Hlt'].
        + rewrite round64_Z in Hlow |- * by lia.
          exists (su - c)%Z. split; [reflexivity|].
          unfold of_Z, zero, leb in Hlow. apply Qle_bool_iff in Hlow.
          change 0 with (inject_Z 0) in Hlow. rewrite <- Zle_Qle in Hlow. lia.
        + exfalso.
          assert (Hm : inject_Z (su - c) <= inject_Z (- 2 ^ 53))
            by (rewrite <- Zle_Qle; lia).
          apply round64_mono in Hm. rewrite (round64_Z (- 2 ^ 53)) in Hm
            by (split; [reflexivity|discriminate]).
          destruct (round64 (inject_Z (su - c))) as [q| | |];
            try discriminate.
          unfold of_Z, zero, leb in Hlow, Hm.
          apply Qle_bool_iff in Hlow. apply Qle_bool_iff in Hm.
          assert (inject_Z (- 2 ^ 53) < 0) by reflexivity. lra.
      - exists (2 ^ 53)%Z. split; [|split; [discriminate|reflexivity]].
        assert (Hm : inject_Z (2 ^ 53) <= inject_Z (su - c))
          by (rewrite <- Zle_Qle; lia).
        apply round64_mono in Hm. rewrite (round64_Z (2 ^ 53)) in Hm
          by (split; [discriminate|reflexivity]).
        destruct (round64 (inject_Z (su - c))) as [q| | |] eqn:Er;
          try discriminate.
        unfold of_Z, leb in Hhigh, Hm.
        apply Qle_bool_iff in Hhigh. apply Qle_bool_iff in Hm.
        unfold of_Z. f_equal.
        apply (round64_Fin_Z _ Er). lra. }
    destruct Hrv as (w & Ew & Hw).
    rewrite Esum, Ew.
    assert (Et : sumValues
                   [{| oid := freshOid utxos; output := remainder;
                       value := of_Z w |}] = of_Z w).
    { unfold sumValues. cbn [fold_left value]. change zero with (of_Z 0).
      rewrite add_Z by lia. reflexivity. }
    rewrite Et. exists su, w. split; [exact Hsu|]. split.
    + cbn [totalValue fold_right value exactValue of_Z]. ring.
    + apply sub_Z. lia.
Qed.

(** C9 (amended). When the utxos pass [validateOutputWithValues] and the
    dust relay fee rate, given or default, is not finite, below 1 or above
    [MAX_FEE_RATE], [maxFunds] throws 'Fee rate ... not supported': for
    the dust relay fee rate when [feeRate] is valid, for [feeRate]
    otherwise. *)
Theorem maxFunds_validates_dustRelayFeeRate
  (utxos : list (OutputWithValue Output)) (remainder : Output)
  (feeRate : number) (dustRelayFeeRate : option number) :
  let rate := orDefault dustRelayFeeRate (Fin DUST_RELAY_FEE_RATE) in
  validateOutputWithValues utxos = Ok tt ->
  (isFinite rate = false \/
   exists q : Q, rate = Fin q /\ (q < 1 \/ MAX_FEE_RATE < q)) ->
  (validateFeeRate feeRate = Ok tt ->
   maxFunds utxos remainder feeRate dustRelayFeeRate
   = Throw (InvalidFeeRateError rate))
  /\ (validateFeeRate feeRate <> Ok tt ->
      maxFunds utxos remainder feeRate dustRelayFeeRate
      = Throw (InvalidFeeRateError feeRate))
  /\ exists x, maxFunds utxos remainder feeRate dustRelayFeeRate
               = Throw (InvalidFeeRateError x).
Proof.
  intros rate Hvo Hbad. apply feeRateNotSupported_true in Hbad.
  unfold maxFunds. fold rate. rewrite Hvo. simpl.
  assert (Hr : validateFeeRate rate = Throw (InvalidFeeRateError rate)).
  { unfold validateFeeRate. now rewrite Hbad. }
  destruct (validateFeeRate feeRate) as [[]|e] eqn:E; simpl.
  - rewrite Hr. simpl. split; [reflexivity|]. split; [|eauto].
    intro H. now elim H.
  - apply validateFeeRate_Throw in E. destruct E as [-> _].
    split; [discriminate|]. split; eauto.
Qed.

(* ================================================================== *)
(** ** Further properties of the sweep *)

Lemma keepUtxo_Throw (utxos : list (OutputWithValue Output))
  (remainder : Output) (feeRate : number) (u : OutputWithValue Output)
  (e : error) :
  keepUtxo utxos remainder feeRate u = Throw e -> e = NegativeFeeContribution.
Proof.
  unfold keepUtxo. cbv zeta.
  destruct (_ <? zero)%num; [now intros [= <-]|discriminate].
Qed.

Lemma validUtxos_Throw (utxos : list (OutputWithValue Output))
  (remainder : Output) (feeRate : number) (e : error) :
  validUtxos utxos remainder feeRate = Throw e -> e = NegativeFeeContribution.
Proof.
  intro H. apply filterM_Throw in H. destruct H as (x & _ & H).
  now apply keepUtxo_Throw in H.
Qed.

(** X1. The errors about the utxos come from the first validation alone:
    [maxFunds] throws 'Empty group' exactly when [utxos] is empty and
    'Input value v not supported' exactly when [v] is the value of the
    first entry that is not an integer of (0, 10^14], whatever the
    recipient and the two fee rates are; it never throws 'Target #i is
    dusty'. *)
Theorem maxFunds_utxos_errors (utxos : list (OutputWithValue Output))
  (remainder : Output) (feeRate : number) (dustRelayFeeRate : option number) :
  (maxFunds utxos remainder feeRate dustRelayFeeRate = Throw EmptyGroupError
   <-> utxos = [])
  /\ (forall v,
      maxFunds utxos remainder feeRate dustRelayFeeRate
      = Throw (InvalidValueError v)
      <-> exists l1 u l2, utxos = l1 ++ u :: l2
            /\ Forall (fun u => SupportedValue (value u)) l1
            /\ ~ SupportedValue (value u) /\ v = value u)
  /\ (forall i,
      maxFunds utxos remainder feeRate dustRelayFeeRate
      <> Throw (DustTargetError i)).
Proof.
  assert (Hfirst : forall e,
    (e = EmptyGroupError \/ (exists v, e = InvalidValueError v)
     \/ exists i, e = DustTargetError i) ->
    maxFunds utxos remainder feeRate dustRelayFeeRate = Throw e ->
    validateOutputWithValues utxos = Throw e).
  { intros e He H. apply maxFunds_Throw in H.
    destruct H as [H|[[r ->]|[(a & b & ->)|[_ H]]]].
    - exact H.
    - destruct He as [He|[[v He]|[i He]]]; discriminate.
    - destruct He as [He|[[v He]|[i He]]]; discriminate.
    - apply validUtxos_Throw in H. subst e.
      destruct He as [He|[[v He]|[i He]]]; discriminate. }
  assert (Hthen : forall e,
    validateOutputWithValues utxos = Throw e ->
    maxFunds utxos remainder feeRate dustRelayFeeRate = Throw e).
  { intros e H. unfold maxFunds. now rewrite H. }
  split; [|split].
  - split.
    + intro H. apply Hfirst in H; [|auto].
      apply validateOutputWithValues_Throw in H.
      destruct H as [[H _]|[_ [v H]]]; [exact H|discriminate].
    + intros ->. reflexivity.
  - intro v. split.
    + intro H. apply Hfirst in H; [|eauto].
      unfold validateOutputWithValues in H. destruct utxos as [|u l].
      * discriminate.
      * change (Nat.eqb (length (u :: l)) 0) with false in H. cbv iota in H.
        apply checkValues_Throw in H.
        destruct H as (l1 & u' & l2 & E & Hall & Hbad & [= ->]).
        exists l1, u', l2. auto.
    + intros (l1 & u & l2 & E & Hall & Hbad & ->). apply Hthen.
      unfold validateOutputWithValues.
      destruct utxos as [|u0 l]; [now destruct l1|].
      change (Nat.eqb (length (u0 :: l)) 0) with false. cbv iota.
      apply checkValues_Throw. exists l1, u, l2. auto.
  - intros i H. apply Hfirst in H; [|eauto].
    apply validateOutputWithValues_Throw in H.
    destruct H as [[_ H]|[_ [v H]]]; discriminate.
Qed.

(** X2. With a size estimator that does not grow when an input is
    removed, a call whose arguments pass the three validations can throw
    only from the final check: the recipient value is then not dust, the
    error is the one [validatedFeeAndVsize] throws on the retained utxos
    and the recipient, and it is 'Final fee rate ... lower than required
    ...' or 'Fee rate ... not supported'. *)
Theorem maxFunds_throws_only_from_final_check
  (utxos : list (OutputWithValue Output)) (remainder : Output)
  (feeRate : number) (dustRelayFeeRate : option number) (e : error) :
  VsizeMonotone ->
  validateOutputWithValues utxos = Ok tt ->
  validateFeeRate feeRate = Ok tt ->
  validateFeeRate (orDefault dustRelayFeeRate (Fin DUST_RELAY_FEE_RATE))
  = Ok tt ->
  maxFunds utxos remainder feeRate dustRelayFeeRate = Throw e ->
  let valid := filter (worthSpending utxos remainder feeRate) utxos in
  let target := {| oid := freshOid utxos; output := remainder;
                   value := remainderValue remainder feeRate valid |} in
  isDust remainder (value target)
    (orDefault dustRelayFeeRate (Fin DUST_RELAY_FEE_RATE)) = false
  /\ validatedFeeAndVsize valid [target] feeRate = Throw e
  /\ ((exists a, e = InsufficientFeeError a feeRate)
      \/ (exists a, e = InvalidFeeRateError a)).
Proof.
  intros Hmono Hvo Hfr Hdr H valid target.
  pose proof Hfr as Hsup. apply validateFeeRate_Ok in Hsup.
  pose proof (validUtxos_total Hmono utxos remainder Hsup) as Hv.
  fold valid in Hv.
  unfold maxFunds in H. rewrite Hvo, Hfr, Hdr in H. simpl in H.
  unfold select in H. rewrite Hv in H. simpl in H. fold target in H.
  cbn [value target].
  destruct (isDust remainder (remainderValue remainder feeRate valid) _);
    simpl in H; [discriminate|].
  split; [reflexivity|].
  destruct (validatedFeeAndVsize valid [target] feeRate) as [fv|e'] eqn:E;
    simpl in H; [discriminate|].
  assert (Ee : e' = e) by congruence. subst e'. clear H.
  split; [reflexivity|].
  unfold validatedFeeAndVsize in E. cbv zeta in E.
  destruct (_ <? feeRate)%num.
  - left.
    exists ((sumValues valid - sumValues [target])
            / of_Z (vsize (map output valid) (map output [target])))%num.
    congruence.
  - match type of E with
    | context [validateFeeRate ?x] =>
        destruct (validateFeeRate x) as [[]|e''] eqn:E2
    end; simpl in E; [discriminate|].
    assert (Ee : e'' = e) by congruence. subst e''.
    apply validateFeeRate_Throw in E2. destruct E2 as [-> _]. eauto.
Qed.

(** X3. With a positive size estimator, when the values of the returned
    utxos total at most 2^53 and the target value is not negative, the
    fee of a returned selection is exactly what the code computed for it,
    [Math.ceil(feeRate * vsize)] on the returned virtual size, which is
    the estimator's on the returned utxos and the recipient. *)
Theorem maxFunds_fee_is_ceiling (utxos : list (OutputWithValue Output))
  (remainder : Output) (feeRate : number) (dustRelayFeeRate : option number)
  (r : Selection Output) :
  VsizePositive ->
  maxFunds utxos remainder feeRate dustRelayFeeRate = Ok (Some r) ->
  totalValue (sel_utxos r) <= inject_Z (2 ^ 53) ->
  Forall (fun t => (zero <=? value t)%num = true) (sel_targets r) ->
  sel_vsize r = of_Z (vsize (map output (sel_utxos r)) [remainder])
  /\ sel_fee r = ceil (feeRate * sel_vsize r)%num.
Proof.
  intros Hpos H Htot Htargets. apply maxFunds_Some_inv in H.
  destruct H as (Hvo & Hfr & _ & _ & _ & fv & Hfv & ->).
  cbn [sel_fee sel_vsize sel_utxos sel_targets] in *.
  rewrite returned_utxos_content in *.
  set (valid := filter (worthSpending utxos remainder feeRate) utxos) in *.
  apply validatedFeeAndVsize_Ok in Hfv. destruct Hfv as (-> & _ & _).
  cbn [fv_fee fv_vsize map output].
  split; [reflexivity|].
  apply validateFeeRate_Ok in Hfr. destruct Hfr as (f & -> & Hf1 & _).
  apply validateOutputWithValues_Ok in Hvo. destruct Hvo as [_ Hall].
  pose proof (filter_Forall (worthSpending utxos remainder (Fin f)) Hall)
    as Hvalid. fold valid in Hvalid.
  destruct (totalValue_supported Hvalid) as (su & Hsu & Hsub).
  assert (Hsu53 : (su <= 2 ^ 53)%Z).
  { rewrite Zle_Qle, <- Hsu. exact Htot. }
  pose proof (sumValues_exact Hvalid Hsu Hsu53) as Esum.
  inversion Htargets as [|t ts Hlow _ Et]; subst t ts.
  cbn [value] in Hlow.
  set (vs := vsize (map output valid) [remainder]) in *.
  change (Fin f * of_Z vs)%num with (round64 (f * inject_Z vs)).
  assert (Erv : remainderValue remainder (Fin f) valid
                = (of_Z su - ceil (round64 (f * inject_Z vs)))%num).
  { unfold remainderValue, validFee. now rewrite feeFor_Fin, Esum. }
  rewrite Erv in Hlow |- *. rewrite Esum.
  assert (Hx : 0 <= f * inject_Z vs).
  { pose proof (Hpos (map output valid) [remainder]) as Hvs. fold vs in Hvs.
    rewrite Zlt_Qlt in Hvs. change (inject_Z 0) with 0 in Hvs. nra. }
  pose proof (round64_nonneg _ Hx) as Hnonneg.
  destruct (round64 (f * inject_Z vs)) as [p| | |];
    try discriminate Hnonneg; [|discriminate Hlow].
  change (ceil (Fin p)) with (of_Z (Qceiling p)) in *.
  set (c := Qceiling p) in *.
  assert (Hc : (0 <= c)%Z).
  { unfold leb, zero in Hnonneg. apply Qle_bool_iff in Hnonneg.
    rewrite <- (Qceiling_Z 0). now apply Qceiling_resp_le. }
  assert (Esub : (of_Z su - of_Z c)%num = round64 (inject_Z (su - c))).
  { unfold of_Z, sub, neg, add. apply round64_comp.
    unfold Z.sub. now rewrite inject_Z_plus, inject_Z_opp. }
  rewrite Esub in Hlow |- *.
  assert (Hge : (0 <= su - c)%Z).
  { destruct (Z_le_gt_dec (- 2 ^ 53) (su - c)) as [Hge|Hlt'].
    - rewrite round64_Z in Hlow by lia.
      unfold of_Z, zero, leb in Hlow. apply Qle_bool_iff in Hlow.
      change 0 with (inject_Z 0) in Hlow. now rewrite <- Zle_Qle in Hlow.
    - exfalso.
      assert (Hm : inject_Z (su - c) <= inject_Z (- 2 ^ 53))
        by (rewrite <- Zle_Qle; lia).
      apply round64_mono in Hm. rewrite (round64_Z (- 2 ^ 53)) in Hm
        by (split; [reflexivity|discriminate]).
      destruct (round64 (inject_Z (su - c))) as [q| | |];
        try discriminate.
      unfold of_Z, zero, leb in Hlow, Hm.
      apply Qle_bool_iff in Hlow. apply Qle_bool_iff in Hm.
      assert (inject_Z (- 2 ^ 53) < 0) by reflexivity. lra. }
  rewrite round64_Z by lia.
  unfold sumValues at 1. cbn [fold_left value]. change zero with (of_Z 0).
  rewrite add_Z by lia. rewrite sub_Z by lia.
  f_equal. lia.
Qed.

(** X4. The dust relay fee rate only decides whether a selection is
    returned, not which: two calls that differ in it alone and both
    return a selection return the same one. *)
Theorem maxFunds_dust_rate_only_gates (utxos : list (OutputWithValue Output))
  (remainder : Output) (feeRate : number) (d1 d2 : option number)
  (r1 r2 : Selection Output) :
  maxFunds utxos remainder feeRate d1 = Ok (Some r1) ->
  maxFunds utxos remainder feeRate d2 = Ok (Some r2) ->
  r1 = r2.
Proof.
  intros H1 H2. apply maxFunds_Some_inv in H1, H2.
  destruct H1 as (_ & _ & _ & _ & _ & fv1 & Hfv1 & ->).
  destruct H2 as (_ & _ & _ & _ & _ & fv2 & Hfv2 & ->).
  rewrite Hfv1 in Hfv2. injection Hfv2 as <-. reflexivity.
Qed.

(** X5. A returned selection passes the library's own validators: its
    target is not dust for [validateDust] at the same dust relay fee rate,
    [validatedFeeAndVsize] on its utxos and targets at the same fee rate
    gives back its fee and virtual size, and its utxos, when there are
    any, pass [validateOutputWithValues]. *)
Theorem maxFunds_result_revalidates (utxos : list (OutputWithValue Output))
  (remainder : Output) (feeRate : number) (dustRelayFeeRate : option number)
  (r : Selection Output) :
  maxFunds utxos remainder feeRate dustRelayFeeRate = Ok (Some r) ->
  validateDust (sel_targets r) dustRelayFeeRate = Ok tt
  /\ validatedFeeAndVsize (sel_utxos r) (sel_targets r) feeRate
     = Ok {| fv_fee := sel_fee r; fv_vsize := sel_vsize r |}
  /\ (sel_utxos r <> [] -> validateOutputWithValues (sel_utxos r) = Ok tt).
Proof.
  intro H. apply maxFunds_Some_inv in H.
  destruct H as (Hvo & _ & _ & _ & Hd & fv & Hfv & ->).
  cbn [sel_fee sel_vsize sel_utxos sel_targets].
  rewrite returned_utxos_content. split; [|split].
  - unfold validateDust. cbn [dustLoop output value]. now rewrite Hd.
  - rewrite Hfv. now destruct fv.
  - intro Hne. apply validateOutputWithValues_Ok. split; [exact Hne|].
    apply validateOutputWithValues_Ok in Hvo.
    apply filter_Forall, Hvo.
Qed.

(* ================================================================== *)
(** ** Further properties of the validators *)

(** X6. The requested fee rate is only a lower bound in
    [validatedFeeAndVsize]: when the check succeeds for a requested rate,
    it succeeds with the same result for every requested rate that is
    lower or equal, and for [NaN], the requested rate itself never being
    validated. *)
Theorem validatedFeeAndVsize_lower_rate
  (utxos targets : list (OutputWithValue Output)) (feeRate feeRate' : number)
  (fv : FeeAndVsize) :
  validatedFeeAndVsize utxos targets feeRate = Ok fv ->
  (feeRate' <=? feeRate)%num = true \/ feeRate' = NaN ->
  validatedFeeAndVsize utxos targets feeRate' = Ok fv.
Proof.
  intros H Hle. apply validatedFeeAndVsize_Ok in H.
  destruct H as (-> & Hlt & Hsup).
  pose proof Hsup as Hok. apply validateFeeRate_Ok in Hok.
  destruct Hsup as (q & Hq & _).
  unfold validatedFeeAndVsize. cbv zeta. rewrite Hok.
  rewrite Hq in Hlt |- *.
  assert (E : (Fin q <? feeRate')%num = false).
  { destruct Hle as [Hle| ->]; [|reflexivity].
    destruct feeRate' as [a| | |], feeRate as [b| | |];
      simpl in Hle, Hlt |- *; try discriminate; try reflexivity.
    apply Qle_bool_iff in Hle. apply Qlt_bool_false_iff in Hlt.
    apply Qlt_bool_false_iff. lra. }
  now rewrite E.
Qed.

(** X7. When [validatedFeeAndVsize] succeeds on a transaction of positive
    virtual size, the fee it returns is finite and strictly positive, and
    the sum of the target values, as computed, is strictly below the sum
    of the utxo values. *)
Theorem validatedFeeAndVsize_fee_bounds
  (utxos targets : list (OutputWithValue Output)) (feeRate : number)
  (fv : FeeAndVsize) :
  let vs := vsize (map output utxos) (map output targets) in
  (0 < vs)%Z ->
  validatedFeeAndVsize utxos targets feeRate = Ok fv ->
  exists fee : Q,
    fv_fee fv = Fin fee
    /\ fv_vsize fv = of_Z vs
    /\ 0 < fee
    /\ (sumValues targets <? sumValues utxos)%num = true.
Proof.
  intros vs Hvs H. apply validatedFeeAndVsize_Ok in H.
  destruct H as (-> & _ & (q & Hq & Hq1 & _)).
  fold vs in Hq. cbn [fv_fee fv_vsize]. fold vs.
  assert (Hvq : 0 < inject_Z vs).
  { change 0 with (inject_Z 0). now rewrite <- Zlt_Qlt. }
  assert (Ez : Qeq_bool (inject_Z vs) 0 = false).
  { apply Qeq_bool_false_iff. lra. }
  assert (Hfee : exists fee, (sumValues utxos - sumValues targets)%num = Fin fee
                             /\ 0 < fee).
  { destruct (sumValues utxos - sumValues targets)%num as [x| | |];
      unfold of_Z, div in Hq; try rewrite Ez in Hq;
      try discriminate Hq;
      try (destruct (Qle_bool 0 (inject_Z vs)); discriminate Hq).
    exists x. split; [reflexivity|].
    apply Qnot_le_lt. intro Hx.
    assert (Hd : x / inject_Z vs <= 0).
    { apply Qle_shift_div_r; [exact Hvq|]. lra. }
    pose proof (round64_nonpos _ Hd) as Hr. rewrite Hq in Hr.
    unfold leb, zero in Hr. apply Qle_bool_iff in Hr. lra. }
  destruct Hfee as (fee & Efee & Hpos).
  exists fee. split; [exact Efee|]. split; [reflexivity|].
  split; [exact Hpos|].
  destruct (sumValues utxos) as [a| | |], (sumValues targets) as [b| | |];
    try discriminate Efee.
  unfold sub, neg, add in Efee. unfold ltb. apply Qlt_bool_iff.
  apply Qnot_le_lt. intro Hab.
  assert (Hd : a + - b <= 0) by lra.
  pose proof (round64_nonpos _ Hd) as Hr. rewrite Efee in Hr.
  unfold leb, zero in Hr. apply Qle_bool_iff in Hr. lra.
Qed.

(** X8. [validateOutputWithValues] judges entry by entry: every non-empty
    filtering of a list that passes passes, and the concatenation of two
    non-empty lists passes exactly when both do. *)
Theorem validateOutputWithValues_parts (l : list (OutputWithValue Output)) :
  (validateOutputWithValues l = Ok tt ->
   forall p : OutputWithValue Output -> bool,
     filter p l <> [] -> validateOutputWithValues (filter p l) = Ok tt)
  /\ (forall l', l <> [] -> l' <> [] ->
      (validateOutputWithValues (l ++ l') = Ok tt <->
       validateOutputWithValues l = Ok tt
       /\ validateOutputWithValues l' = Ok tt)).
Proof.
  split.
  - intros H p Hne. apply validateOutputWithValues_Ok in H.
    apply validateOutputWithValues_Ok. split; [exact Hne|].
    apply filter_Forall, H.
  - intros l' Hl Hl'. rewrite !validateOutputWithValues_Ok, Forall_app.
    split.
    + intros [_ [H1 H2]]. auto.
    + intros [[_ H1] [_ H2]]. split; [|auto].
      destruct l; [contradiction|discriminate].
Qed.

(** X9. The values of a list that passes [validateOutputWithValues] total
    a positive integer, at least the number of entries and at most 10^14
    times it; when this total is at most 2^53, and so for every list of at
    most 90 entries, the sum that [reduce] computes is exactly it. *)
Theorem sumValues_bounds (l : list (OutputWithValue Output)) :
  validateOutputWithValues l = Ok tt ->
  exists s : Z,
    totalValue l == inject_Z s
    /\ (0 < s)%Z
    /\ (Z.of_nat (length l) <= s <= Z.of_nat (length l) * 10 ^ 14)%Z
    /\ ((s <= 2 ^ 53)%Z -> sumValues l = of_Z s)
    /\ ((length l <= 90)%nat -> sumValues l = of_Z s).
Proof.
  intro H. apply validateOutputWithValues_Ok in H. destruct H as [Hne Hall].
  destruct (totalValue_supported Hall) as (s & Hs & Hb).
  exists s. split; [exact Hs|]. split; [|split; [exact Hb|split]].
  - destruct l; [contradiction|]. simpl length in Hb. lia.
  - intro H53. now apply sumValues_exact.
  - intro Hlen. apply sumValues_exact; [assumption..|].
    assert ((90 * 10 ^ 14 <= 2 ^ 53)%Z) by (vm_compute; discriminate).
    nia.
Qed.

(** X10. [validateDust] on a concatenation: an error of the first part is
    the error of the whole; when the first part is clean, the outcome is
    that of the second part with the reported index shifted by the length
    of the first. The empty list is clean. *)
Theorem validateDust_app (l1 l2 : list (OutputWithValue Output))
  (relayFeeRate : option number) :
  validateDust (l1 ++ l2) relayFeeRate
  = match validateDust l1 relayFeeRate with
    | Throw e => Throw e
    | Ok _ =>
        match validateDust l2 relayFeeRate with
        | Throw (DustTargetError i) =>
            Throw (DustTargetError (length l1 + i))
        | other => other
        end
    end.
Proof.
  unfold validateDust.
  set (rate := orDefault relayFeeRate (Fin DUST_RELAY_FEE_RATE)).
  destruct (dustLoop 0 l1 rate) as [[]|e] eqn:E1.
  - apply dustLoop_Ok in E1.
    destruct (dustLoop 0 l2 rate) as [[]|e] eqn:E2.
    + apply dustLoop_Ok in E2. apply dustLoop_Ok.
      unfold NoDust in *. apply Forall_app. auto.
    + apply dustLoop_Throw in E2.
      destruct E2 as (a & t & b & -> & Ha & Ht & ->).
      rewrite app_assoc, dustLoop_first; auto.
      * now rewrite length_app.
      * unfold NoDust in *. apply Forall_app. auto.
  - apply dustLoop_Throw in E1.
    destruct E1 as (a & t & b & -> & Ha & Ht & ->).
    rewrite <- app_assoc. simpl. now rewrite dustLoop_first.
Qed.

(** X12. [maxFunds] returns [undefined] for one reason only: it does so
    exactly when the three validations pass, the filter completes and the
    recipient value, the sum of the retained values minus the fee over
    them, is dust at the dust relay fee rate. *)
Theorem maxFunds_undefined_iff_dust (utxos : list (OutputWithValue Output))
  (remainder : Output) (feeRate : number) (dustRelayFeeRate : option number) :
  let rate := orDefault dustRelayFeeRate (Fin DUST_RELAY_FEE_RATE) in
  let valid := filter (worthSpending utxos remainder feeRate) utxos in
  maxFunds utxos remainder feeRate dustRelayFeeRate = Ok None
  <-> validateOutputWithValues utxos = Ok tt
      /\ validateFeeRate feeRate = Ok tt
      /\ validateFeeRate rate = Ok tt
      /\ validUtxos utxos remainder feeRate = Ok valid
      /\ isDust remainder
           (sumValues valid - feeFor remainder feeRate valid)%num rate
         = true.
Proof.
  intros rate valid. unfold maxFunds. fold rate.
  change (sumValues valid - feeFor remainder feeRate valid)%num
    with (remainderValue remainder feeRate valid).
  split.
  - destruct (validateOutputWithValues utxos) as [[]|e]; simpl;
      [|discriminate].
    destruct (validateFeeRate feeRate) as [[]|e]; simpl; [|discriminate].
    destruct (validateFeeRate rate) as [[]|e]; simpl; [|discriminate].
    unfold select.
    destruct (validUtxos utxos remainder feeRate) as [v|e] eqn:Ev; simpl;
      [|discriminate].
    apply validUtxos_Ok in Ev. fold valid in Ev. subst v.
    destruct (isDust remainder _ rate); simpl; [auto 6|].
    destruct (validatedFeeAndVsize valid _ feeRate); simpl; discriminate.
  - intros (-> & -> & -> & Hv & Hd). simpl. unfold select.
    rewrite Hv. simpl. now rewrite Hd.
Qed.

(* ================================================================== *)
(** ** Mapping a selection back to the caller's list *)

Lemma indexOfFrom_bounds (l : list (OutputWithValue Output))
  (x : OutputWithValue Output) :
  In x l -> forall i,
  (i <= indexOfFrom i l x < i + Z.of_nat (length l))%Z.
Proof.
  induction l as [|y t IH]; intros Hin i; [contradiction|].
  cbn [indexOfFrom]. change (length (y :: t)) with (S (length t)).
  destruct (Nat.eqb (oid y) (oid x)) eqn:E; [lia|].
  destruct Hin as [->|Hin]; [now rewrite Nat.eqb_refl in E|].
  specialize (IH Hin (i + 1)%Z). lia.
Qed.

Lemma indexOfFrom_tail (y : OutputWithValue Output)
  (t : list (OutputWithValue Output)) (x : OutputWithValue Output) (i : Z) :
  ~ In (oid y) (map oid t) -> In x t ->
  indexOfFrom i (y :: t) x = indexOfFrom (i + 1) t x.
Proof.
  intros Hy Hx. cbn [indexOfFrom].
  destruct (Nat.eqb (oid y) (oid x)) eqn:E; [|reflexivity].
  apply Nat.eqb_eq in E. elim Hy. rewrite E. now apply in_map.
Qed.

Lemma indexOfFrom_filter_sorted (l : list (OutputWithValue Output))
  (p : OutputWithValue Output -> bool) :
  NoDup (map oid l) -> forall i,
  StronglySorted Z.lt (map (indexOfFrom i l) (filter p l)).
Proof.
  induction l as [|y t IH]; intros Hnd i; [constructor|].
  inversion Hnd as [|? ? Hy Ht]; subst.
  assert (Hrest : map (indexOfFrom i (y :: t)) (filter p t)
                  = map (indexOfFrom (i + 1) t) (filter p t)).
  { apply map_ext_in. intros x Hx. apply filter_In in Hx.
    now apply indexOfFrom_tail. }
  cbn [filter]. destruct (p y).
  - cbn [map]. rewrite Hrest. constructor; [now apply IH|].
    cbn [indexOfFrom]. rewrite Nat.eqb_refl.
    apply Forall_forall. intros z Hz. apply in_map_iff in Hz.
    destruct Hz as (x & <- & Hx). apply filter_In in Hx.
    pose proof (@indexOfFrom_bounds t x (proj1 Hx) (i + 1)). lia.
  - rewrite Hrest. now apply IH.
Qed.

Lemma indexOfFrom_nth (l : list (OutputWithValue Output))
  (x : OutputWithValue Output) :
  NoDup (map oid l) -> In x l -> forall i,
  nth_error l (Z.to_nat (indexOfFrom i l x - i)) = Some x.
Proof.
  induction l as [|y t IH]; intros Hnd Hin i; [contradiction|].
  inversion Hnd as [|? ? Hy Ht]; subst.
  destruct Hin as [->|Hin].
  - cbn [indexOfFrom]. rewrite Nat.eqb_refl, Z.sub_diag. reflexivity.
  - rewrite (@indexOfFrom_tail y t x i Hy Hin).
    pose proof (@indexOfFrom_bounds t x Hin (i + 1)) as Hb.
    replace (Z.to_nat (indexOfFrom (i + 1) t x - i))
      with (S (Z.to_nat (indexOfFrom (i + 1) t x - (i + 1)))) by lia.
    cbn [nth_error]. now apply IH.
Qed.

(** X11. Every utxo of a returned selection is found by [indexOf] in the
    caller's list, so the index is never -1; when the caller's utxos are
    distinct objects, the indices of the selection are strictly
    increasing and each index leads back to the selected utxo. *)
Theorem maxFunds_selected_indices (utxos : list (OutputWithValue Output))
  (remainder : Output) (feeRate : number) (dustRelayFeeRate : option number)
  (r : Selection Output) :
  maxFunds utxos remainder feeRate dustRelayFeeRate = Ok (Some r) ->
  (forall u, In u (sel_utxos r) ->
     (0 <= indexOf utxos u < Z.of_nat (length utxos))%Z)
  /\ (NoDup (map oid utxos) ->
      StronglySorted Z.lt (map (indexOf utxos) (sel_utxos r))
      /\ forall u, In u (sel_utxos r) ->
           nth_error utxos (Z.to_nat (indexOf utxos u)) = Some u).
Proof.
  intro H. apply maxFunds_Some_inv in H.
  destruct H as (_ & _ & _ & _ & _ & fv & _ & ->).
  cbn [sel_utxos]. rewrite returned_utxos_content. split.
  - intros u Hu. apply filter_In in Hu.
    apply (@indexOfFrom_bounds utxos u (proj1 Hu) 0).
  - intro Hnd. split.
    + now apply indexOfFrom_filter_sorted.
    + intros u Hu. apply filter_In in Hu. unfold indexOf.
      rewrite <- (Z.sub_0_r (indexOfFrom 0 utxos u)).
      now apply indexOfFrom_nth.
Qed.

(** X13. With a positive size estimator, a utxo of the caller's list
    whose value exceeds the fee of sweeping the full list is never
    pruned: it is in every selection [maxFunds] returns. *)
Theorem maxFunds_keeps_valuable (utxos : list (OutputWithValue Output))
  (remainder : Output) (feeRate : number) (dustRelayFeeRate : option number)
  (r : Selection Output) (u : OutputWithValue Output) :
  VsizePositive ->
  In u utxos ->
  (value u >? ceil (feeRate * of_Z (vsize (map output utxos) [remainder])))%num
  = true ->
  maxFunds utxos remainder feeRate dustRelayFeeRate = Ok (Some r) ->
  In u (sel_utxos r).
Proof.
  intros Hpos Hin Hval H. apply maxFunds_Some_inv in H.
  destruct H as (Hvo & Hfr & _ & _ & _ & fv & _ & ->).
  cbn [sel_utxos]. rewrite returned_utxos_content.
  apply filter_In. split; [exact Hin|].
  apply validateFeeRate_Ok in Hfr. destruct Hfr as (f & -> & Hf1 & _).
  apply validateOutputWithValues_Ok in Hvo. destruct Hvo as [_ Hall].
  rewrite Forall_forall in Hall. destruct (Hall u Hin) as (zv & Hzv & Hzb).
  apply eqv_of_Z_Fin in Hzv. destruct Hzv as (v & Ev & Hv).
  unfold worthSpending, marginalFee. rewrite !feeFor_Fin.
  change (ceil (Fin f * of_Z (vsize (map output utxos) [remainder])))%num
    with (ceil (round64 (f * inject_Z (vsize (map output utxos) [remainder]))))
    in Hval.
  rewrite Ev in Hval |- *. unfold gtb in Hval |- *.
  (* the fee of the full list is a whole number below the value *)
  assert (Hpos' : forall xs,
            0 <= f * inject_Z (vsize (map output xs) [remainder])).
  { intro xs. pose proof (Hpos (map output xs) [remainder]) as Hvs.
    rewrite Zlt_Qlt in Hvs. change (inject_Z 0) with 0 in Hvs. nra. }
  pose proof (round64_nonneg _ (Hpos' utxos)) as Ha.
  pose proof (round64_nonneg _
                (Hpos' (filter (fun x => neq_ref x u) utxos))) as Hb.
  pose proof (round64_not_NaN
                (f * inject_Z (vsize (map output
                     (filter (fun x => neq_ref x u) utxos)) [remainder])))
    as Hnb.
  destruct (round64 (f * inject_Z (vsize (map output utxos) [remainder])))
    as [a| | |]; try discriminate Hval; try discriminate Ha.
  cbn [ceil] in Hval |- *. unfold ltb in Hval. apply Qlt_bool_iff in Hval.
  unfold leb, zero in Ha. apply Qle_bool_iff in Ha.
  set (ca := Qceiling a) in *.
  assert (Hca : (0 <= ca < zv)%Z).
  { split.
    - rewrite <- (Qceiling_Z 0). now apply Qceiling_resp_le.
    - rewrite Zlt_Qlt, <- Hv. exact Hval. }
  destruct (round64 (f * inject_Z (vsize (map output
              (filter (fun x => neq_ref x u) utxos)) [remainder])))
    as [b| | |]; try discriminate Hb; [|reflexivity].
  cbn [ceil]. unfold leb, zero in Hb. apply Qle_bool_iff in Hb.
  set (cb := Qceiling b).
  assert (Hcb : (0 <= cb)%Z).
  { rewrite <- (Qceiling_Z 0). now apply Qceiling_resp_le. }
  unfold sub, neg, add.
  assert (Hm : inject_Z ca + - inject_Z cb <= inject_Z ca).
  { rewrite Zle_Qle in Hcb. change (inject_Z 0) with 0 in Hcb. lra. }
  apply round64_mono in Hm.
  rewrite (round64_Z ca) in Hm
    by (assert ((10 ^ 14 < 2 ^ 53)%Z) by reflexivity; lia).
  pose proof (round64_not_NaN (inject_Z ca + - inject_Z cb)) as Hn.
  destruct (round64 (inject_Z ca + - inject_Z cb)) as [d| | |];
    try discriminate Hm; [|reflexivity].
  unfold of_Z, leb in Hm. apply Qle_bool_iff in Hm.
  unfold ltb. apply Qlt_bool_iff. lra.
Qed.

End Coinselect.

(* ================================================================== *)
(** ** The size model meets the assumptions *)

Lemma sumN_nonneg (l : list N) : (0 <= Model.sumN l)%Z.
Proof.
  unfold Model.sumN. induction l as [|n l IH]; simpl; lia.
Qed.

Lemma sumN_app (l1 l2 : list N) :
  Model.sumN (l1 ++ l2) = (Model.sumN l1 + Model.sumN l2)%Z.
Proof.
  unfold Model.sumN. induction l1 as [|n l1 IH]; simpl; [reflexivity|].
  rewrite IH. lia.
Qed.

Lemma Model_vsize_monotone : VsizeMonotone Model.vsize.
Proof.
  intros l1 l2 x outputs. unfold Model.vsize.
  apply Z.div_le_mono; [lia|].
  rewrite !map_app, !sumN_app. simpl map.
  change (Model.sumN (Model.inputWeight x :: map Model.inputWeight l2))
    with (Z.of_N (Model.inputWeight x)
          + Model.sumN (map Model.inputWeight l2))%Z.
  lia.
Qed.

Lemma Model_vsize_positive : VsizePositive Model.vsize.
Proof.
  intros inputs outputs. unfold Model.vsize.
  pose proof (sumN_nonneg (map Model.inputWeight inputs)).
  pose proof (sumN_nonneg (map Model.outputWeight outputs)).
  apply Z.div_str_pos. lia.
Qed.

Lemma Model_wallet_supported :
  Forall (fun u : OutputWithValue Model.Handle => SupportedValue (value u))
         Model.wallet.
Proof.
  repeat constructor.
  - exists 100000%Z. split; [reflexivity|]. split; [reflexivity|discriminate].
  - exists 50000%Z. split; [reflexivity|]. split; [reflexivity|discriminate].
Qed.

(* ================================================================== *)
(** ** The theorems at work on the size model *)

Lemma maxFunds_fee_invariant_witness :
  maxFunds Model.vsize Model.isDust Model.MAX_FEE_RATE
    Model.DUST_RELAY_FEE_RATE Model.wallet Model.segwit (Fin 1) None
  = Ok (Some Model.sweepOfWallet)
  /\ sel_fee Model.sweepOfWallet
     = (sumValues (sel_utxos Model.sweepOfWallet)
        - sumValues (sel_targets Model.sweepOfWallet))%num
  /\ (sel_fee Model.sweepOfWallet / sel_vsize Model.sweepOfWallet
      >=? Fin 1)%num = true
  /\ exists su st : Z,
       totalValue (sel_utxos Model.sweepOfWallet) == inject_Z su
       /\ totalValue (sel_targets Model.sweepOfWallet) == inject_Z st
       /\ sel_fee Model.sweepOfWallet = of_Z (su - st).
Proof.
  assert (H : maxFunds Model.vsize Model.isDust Model.MAX_FEE_RATE
                Model.DUST_RELAY_FEE_RATE Model.wallet Model.segwit (Fin 1)
                None = Ok (Some Model.sweepOfWallet))
    by (vm_compute; reflexivity).
  split; [exact H|].
  pose proof (@maxFunds_fee_invariant _ _ _ _ _ _ _ _ _ _ H) as [H1 [H2 H3]].
  split; [exact H1|]. split; [exact H2|].
  apply H3.
  - vm_compute. discriminate.
  - repeat constructor.
Defined.

Lemma maxFunds_retains_worth_spending_witness :
  VsizeMonotone Model.vsize
  /\ validateFeeRate Model.MAX_FEE_RATE (Fin 1) = Ok tt
  /\ validUtxos Model.vsize Model.dustyWallet Model.segwit (Fin 1)
     = Ok [Model.utxo 0 Model.segwit 100000].
Proof.
  split; [exact Model_vsize_monotone|]. split; [vm_compute; reflexivity|].
  exact (proj1 (proj2 (@maxFunds_retains_worth_spending Model.Handle
                         Model.vsize Model.isDust Model.MAX_FEE_RATE
                         Model.DUST_RELAY_FEE_RATE Model.dustyWallet
                         Model.segwit (Fin 1)))
           Model_vsize_monotone ltac:(vm_compute; reflexivity)).
Defined.

Lemma validatedFeeAndVsize_spec_witness :
  validatedFeeAndVsize Model.vsize Model.MAX_FEE_RATE Model.wallet
    [Model.utxo 2 Model.segwit 149743] (Fin 2)
  = Throw (InsufficientFeeError (Fin 1) (Fin 2)).
Proof.
  exact (proj1 (proj2 (@validatedFeeAndVsize_spec Model.Handle Model.vsize
                         Model.MAX_FEE_RATE Model.wallet
                         [Model.utxo 2 Model.segwit 149743] (Fin 2)))
           ltac:(vm_compute; reflexivity)).
Defined.

(** C4. On a call that passes the three validations, one coin of 1 BTC
    swept to a witness-program recipient at the fee rate
    1.1727272727272728, the recipient value is not dust and yet [maxFunds]
    returns no selection: the fee rate times the 110 vbytes rounds to 129,
    129 / 110 rounds below the fee rate, and the final check throws
    'Final fee rate ... lower than required ...'. *)
Lemma maxFunds_final_check_throws :
  let feeRate := double (11727272727272728 # 10000000000000000) in
  validateOutputWithValues Model.oneCoin = Ok tt
  /\ validateFeeRate Model.MAX_FEE_RATE feeRate = Ok tt
  /\ validateFeeRate Model.MAX_FEE_RATE (Fin Model.DUST_RELAY_FEE_RATE)
     = Ok tt
  /\ validUtxos Model.vsize Model.oneCoin Model.wpkh feeRate
     = Ok Model.oneCoin
  /\ validFee Model.vsize Model.wpkh feeRate Model.oneCoin = of_Z 129
  /\ Model.isDust Model.wpkh
       (remainderValue Model.vsize Model.wpkh feeRate Model.oneCoin)
       (Fin Model.DUST_RELAY_FEE_RATE) = false
  /\ (of_Z 129 / of_Z 110 <? feeRate)%num = true
  /\ maxFunds Model.vsize Model.isDust Model.MAX_FEE_RATE
       Model.DUST_RELAY_FEE_RATE Model.oneCoin Model.wpkh feeRate None
     = Throw (InsufficientFeeError (of_Z 129 / of_Z 110)%num feeRate).
Proof.
  vm_compute. repeat split.
Qed.

Lemma validateOutputWithValues_spec_witness :
  validateOutputWithValues Model.wallet = Ok tt
  /\ validateOutputWithValues (@nil (OutputWithValue Model.Handle))
     = Throw EmptyGroupError.
Proof.
  split.
  - apply (proj2 (proj2 (proj2 (validateOutputWithValues_spec Model.wallet)))).
    split; [discriminate|exact Model_wallet_supported].
  - now apply (proj1 (validateOutputWithValues_spec
                        (@nil (OutputWithValue Model.Handle)))).
Defined.

Lemma validateFeeRate_spec_witness :
  validateFeeRate Model.MAX_FEE_RATE (Fin 20000)
  = Throw (InvalidFeeRateError (Fin 20000)).
Proof.
  apply (proj1 (validateFeeRate_spec Model.MAX_FEE_RATE (Fin 20000))).
  right. exists 20000. split; [vm_compute; reflexivity|]. right. vm_compute; reflexivity.
Defined.

Lemma validateDust_first_dusty_witness :
  validateDust Model.isDust Model.DUST_RELAY_FEE_RATE
    [Model.utxo 0 Model.segwit 1000; Model.utxo 1 Model.segwit 1;
     Model.utxo 2 Model.legacy 1] None
  = Throw (DustTargetError 1).
Proof.
  apply (proj1 (validateDust_first_dusty Model.isDust
                  Model.DUST_RELAY_FEE_RATE None)
           [Model.utxo 0 Model.segwit 1000] (Model.utxo 1 Model.segwit 1)
           [Model.utxo 2 Model.legacy 1]).
  - repeat constructor.
  - vm_compute; reflexivity.
Defined.

Lemma maxFunds_same_array_witness :
  exists valid,
    validUtxos Model.vsize Model.dustyWallet Model.segwit (Fin 1) = Ok valid
    /\ (valid <> Model.dustyWallet ->
        sel_utxos_ref Model.sweepOfDustyWallet = FilteredArray
        /\ sel_utxos Model.sweepOfDustyWallet = valid
        /\ (length valid < length Model.dustyWallet)%nat).
Proof.
  destruct (@maxFunds_same_array Model.Handle Model.vsize Model.isDust
              Model.MAX_FEE_RATE Model.DUST_RELAY_FEE_RATE Model.dustyWallet
              Model.segwit (Fin 1) None Model.sweepOfDustyWallet ltac:(vm_compute; reflexivity))
    as (valid & Hv & _ & Hpruned).
  exists valid. split; [exact Hv|exact Hpruned].
Defined.

Lemma maxFunds_validates_dustRelayFeeRate_witness :
  maxFunds Model.vsize Model.isDust Model.MAX_FEE_RATE
    Model.DUST_RELAY_FEE_RATE Model.wallet Model.segwit (Fin 1)
    (Some (Fin (1 # 2)))
  = Throw (InvalidFeeRateError (Fin (1 # 2))).
Proof.
  apply (@maxFunds_validates_dustRelayFeeRate Model.Handle Model.vsize
           Model.isDust Model.MAX_FEE_RATE Model.DUST_RELAY_FEE_RATE
           Model.wallet Model.segwit (Fin 1) (Some (Fin (1 # 2)))).
  - vm_compute; reflexivity.
  - right. exists (1 # 2). split; [vm_compute; reflexivity|]. left. vm_compute; reflexivity.
  - vm_compute; reflexivity.
Defined.

Lemma feeContribution_guard_unreachable_witness :
  VsizeMonotone Model.vsize
  /\ exists valid,
       validUtxos Model.vsize Model.dustyWallet Model.segwit (Fin 1)
       = Ok valid.
Proof.
  split; [exact Model_vsize_monotone|].
  apply (proj1 (proj2 (@feeContribution_guard_unreachable Model.Handle
                         Model.vsize Model.isDust Model.MAX_FEE_RATE
                         Model.DUST_RELAY_FEE_RATE Model.dustyWallet
                         Model.segwit (Fin 1) Model_vsize_monotone))).
  vm_compute; reflexivity.
Defined.

(** C9, as stated, fails on an empty list of utxos: the dust relay fee
    rate 0.5 is refused by [validateFeeRate] and the fee rate 1 accepted,
    yet [maxFunds] throws 'Empty group', the first validation's error, and
    no 'Fee rate ... not supported'. *)
Lemma maxFunds_empty_utxos_bad_dust_rate :
  validateFeeRate Model.MAX_FEE_RATE (Fin 1) = Ok tt
  /\ validateFeeRate Model.MAX_FEE_RATE (Fin (1 # 2))
     = Throw (InvalidFeeRateError (Fin (1 # 2)))
  /\ maxFunds Model.vsize Model.isDust Model.MAX_FEE_RATE
       Model.DUST_RELAY_FEE_RATE [] Model.segwit (Fin 1) (Some (Fin (1 # 2)))
     = Throw EmptyGroupError
  /\ forall x,
       maxFunds Model.vsize Model.isDust Model.MAX_FEE_RATE
         Model.DUST_RELAY_FEE_RATE [] Model.segwit (Fin 1)
         (Some (Fin (1 # 2)))
       <> Throw (InvalidFeeRateError x).
Proof.
  repeat split. intros x H. discriminate H.
Qed.

(** C1, as stated, fails in two ways. Sweeping 91 coins of
    99999999999999 at the fee rate 1 returns a selection whose fee, 6232,
    is not the integer difference of the selected values and the target
    value, 6233: the sum of the values is above 2^53 and [reduce] rounds
    it. Sweeping one coin at the fee rate 1.3 returns the fee 143 for 110
    vbytes, and 143 / 110 is, in the rationals, below the fee rate, the
    binary64 number nearest to 1.3. *)
Lemma maxFunds_fee_not_exact :
  (exists r,
      maxFunds Model.vsize Model.isDust Model.MAX_FEE_RATE
        Model.DUST_RELAY_FEE_RATE Model.bigWallet Model.legacy (Fin 1) None
      = Ok (Some r)
      /\ sel_fee r = of_Z 6232
      /\ totalValue (sel_utxos r) - totalValue (sel_targets r) == 6233)
  /\ (exists r,
      maxFunds Model.vsize Model.isDust Model.MAX_FEE_RATE
        Model.DUST_RELAY_FEE_RATE Model.oneCoin Model.wpkh
        (double (13 # 10)) None
      = Ok (Some r)
      /\ sel_fee r = of_Z 143
      /\ sel_vsize r = of_Z 110
      /\ exactValue (sel_fee r) / exactValue (sel_vsize r)
         < exactValue (double (13 # 10))).
Proof.
  split.
  - eexists. split; [vm_compute; reflexivity|].
    split; vm_compute; reflexivity.
  - eexists. split; [vm_compute; reflexivity|].
    repeat split; vm_compute; reflexivity.
Qed.

(* ================================================================== *)
(** ** The further properties at work on the size model *)

Lemma maxFunds_utxos_errors_witness :
  maxFunds Model.vsize Model.isDust Model.MAX_FEE_RATE
    Model.DUST_RELAY_FEE_RATE [] Model.segwit NaN (Some NaN)
  = Throw EmptyGroupError.
Proof.
  now apply (proj1 (@maxFunds_utxos_errors Model.Handle Model.vsize
                      Model.isDust Model.MAX_FEE_RATE
                      Model.DUST_RELAY_FEE_RATE [] Model.segwit NaN
                      (Some NaN))).
Defined.

Lemma maxFunds_throws_only_from_final_check_witness :
  let feeRate := double (11727272727272728 # 10000000000000000) in
  let valid :=
    filter (worthSpending Model.vsize Model.oneCoin Model.wpkh feeRate)
      Model.oneCoin in
  validatedFeeAndVsize Model.vsize Model.MAX_FEE_RATE valid
    [ {| oid := freshOid Model.oneCoin; output := Model.wpkh;
         value := remainderValue Model.vsize Model.wpkh feeRate valid |} ]
    feeRate
  = Throw (InsufficientFeeError (of_Z 129 / of_Z 110)%num feeRate).
Proof.
  intros feeRate valid.
  destruct (@maxFunds_throws_only_from_final_check Model.Handle Model.vsize
              Model.isDust Model.MAX_FEE_RATE Model.DUST_RELAY_FEE_RATE
              Model.oneCoin Model.wpkh feeRate None
              (InsufficientFeeError (of_Z 129 / of_Z 110)%num feeRate)
              Model_vsize_monotone
              ltac:(vm_compute; reflexivity) ltac:(vm_compute; reflexivity)
              ltac:(vm_compute; reflexivity) ltac:(vm_compute; reflexivity))
    as (_ & H & _).
  exact H.
Defined.

Lemma maxFunds_fee_is_ceiling_witness :
  sel_vsize Model.sweepOfWallet
  = of_Z (Model.vsize (map output (sel_utxos Model.sweepOfWallet))
            [Model.segwit])
  /\ sel_fee Model.sweepOfWallet
     = ceil (Fin 1 * sel_vsize Model.sweepOfWallet)%num.
Proof.
  apply (@maxFunds_fee_is_ceiling Model.Handle Model.vsize Model.isDust
           Model.MAX_FEE_RATE Model.DUST_RELAY_FEE_RATE Model.wallet
           Model.segwit (Fin 1) None Model.sweepOfWallet
           Model_vsize_positive).
  - vm_compute; reflexivity.
  - vm_compute. discriminate.
  - repeat constructor.
Defined.

Lemma maxFunds_dust_rate_only_gates_witness :
  maxFunds Model.vsize Model.isDust Model.MAX_FEE_RATE
    Model.DUST_RELAY_FEE_RATE Model.wallet Model.segwit (Fin 1) None
  = Ok (Some Model.sweepOfWallet)
  /\ forall r,
      maxFunds Model.vsize Model.isDust Model.MAX_FEE_RATE
        Model.DUST_RELAY_FEE_RATE Model.wallet Model.segwit (Fin 1)
        (Some (Fin 1000))
      = Ok (Some r) ->
      Model.sweepOfWallet = r.
Proof.
  split; [vm_compute; reflexivity|]. intros r Hr.
  exact (@maxFunds_dust_rate_only_gates Model.Handle Model.vsize Model.isDust
           Model.MAX_FEE_RATE Model.DUST_RELAY_FEE_RATE Model.wallet
           Model.segwit (Fin 1) None (Some (Fin 1000))
           Model.sweepOfWallet r ltac:(vm_compute; reflexivity) Hr).
Defined.

Lemma maxFunds_result_revalidates_witness :
  validateDust Model.isDust Model.DUST_RELAY_FEE_RATE
    (sel_targets Model.sweepOfDustyWallet) None = Ok tt
  /\ validatedFeeAndVsize Model.vsize Model.MAX_FEE_RATE
       (sel_utxos Model.sweepOfDustyWallet)
       (sel_targets Model.sweepOfDustyWallet) (Fin 1)
     = Ok {| fv_fee := of_Z 109; fv_vsize := of_Z 109 |}.
Proof.
  destruct (@maxFunds_result_revalidates Model.Handle Model.vsize
              Model.isDust Model.MAX_FEE_RATE Model.DUST_RELAY_FEE_RATE
              Model.dustyWallet Model.segwit (Fin 1) None
              Model.sweepOfDustyWallet ltac:(vm_compute; reflexivity)) as (H1 & H2 & _).
  split; [exact H1|exact H2].
Defined.

Lemma validatedFeeAndVsize_lower_rate_witness :
  validatedFeeAndVsize Model.vsize Model.MAX_FEE_RATE Model.wallet
    [Model.utxo 2 Model.segwit 149743] (Fin (1 # 2))
  = Ok {| fv_fee := Fin 257; fv_vsize := of_Z 257 |}
  /\ validatedFeeAndVsize Model.vsize Model.MAX_FEE_RATE Model.wallet
       [Model.utxo 2 Model.segwit 149743] NaN
     = Ok {| fv_fee := Fin 257; fv_vsize := of_Z 257 |}.
Proof.
  split.
  - apply (@validatedFeeAndVsize_lower_rate Model.Handle Model.vsize
             Model.MAX_FEE_RATE Model.wallet
             [Model.utxo 2 Model.segwit 149743] (Fin 1) (Fin (1 # 2))
             {| fv_fee := Fin 257; fv_vsize := of_Z 257 |}
             ltac:(vm_compute; reflexivity)).
    left. vm_compute; reflexivity.
  - apply (@validatedFeeAndVsize_lower_rate Model.Handle Model.vsize
             Model.MAX_FEE_RATE Model.wallet
             [Model.utxo 2 Model.segwit 149743] (Fin 1) NaN
             {| fv_fee := Fin 257; fv_vsize := of_Z 257 |}
             ltac:(vm_compute; reflexivity)).
    right. vm_compute; reflexivity.
Defined.

Lemma validatedFeeAndVsize_fee_bounds_witness :
  exists fee : Q,
    Fin 257 = Fin fee
    /\ 0 < fee
    /\ (sumValues [Model.utxo 2 Model.segwit 149743]
        <? sumValues Model.wallet)%num = true.
Proof.
  destruct (@validatedFeeAndVsize_fee_bounds Model.Handle Model.vsize
              Model.MAX_FEE_RATE Model.wallet
              [Model.utxo 2 Model.segwit 149743] (Fin 1)
              {| fv_fee := Fin 257; fv_vsize := of_Z 257 |}
              ltac:(vm_compute; reflexivity) ltac:(vm_compute; reflexivity)) as (fee & H1 & _ & H2 & H3).
  exists fee. repeat split; assumption.
Defined.

Lemma validateOutputWithValues_parts_witness :
  validateOutputWithValues
    (filter (fun u => Nat.eqb (oid u) 1) Model.wallet) = Ok tt.
Proof.
  apply (proj1 (validateOutputWithValues_parts Model.wallet)).
  - vm_compute; reflexivity.
  - discriminate.
Defined.

Lemma sumValues_bounds_witness :
  exists s : Z,
    totalValue Model.wallet == inject_Z s
    /\ (0 < s)%Z
    /\ sumValues Model.wallet = of_Z s.
Proof.
  destruct (sumValues_bounds Model.wallet ltac:(vm_compute; reflexivity))
    as (s & H1 & H2 & _ & _ & H3).
  exists s. split; [exact H1|]. split; [exact H2|].
  apply H3. simpl. lia.
Defined.

Lemma validateDust_app_witness :
  validateDust Model.isDust Model.DUST_RELAY_FEE_RATE
    (Model.wallet ++ [Model.utxo 2 Model.segwit 1000;
                      Model.utxo 3 Model.segwit 1]) None
  = Throw (DustTargetError 3).
Proof.
  rewrite (@validateDust_app Model.Handle Model.isDust
             Model.DUST_RELAY_FEE_RATE Model.wallet
             [Model.utxo 2 Model.segwit 1000; Model.utxo 3 Model.segwit 1]
             None).
  vm_compute; reflexivity.
Defined.

Lemma maxFunds_undefined_iff_dust_witness :
  maxFunds Model.vsize Model.isDust Model.MAX_FEE_RATE
    Model.DUST_RELAY_FEE_RATE Model.poorWallet Model.segwit (Fin 1) None
  = Ok None.
Proof.
  apply (@maxFunds_undefined_iff_dust Model.Handle Model.vsize Model.isDust
           Model.MAX_FEE_RATE Model.DUST_RELAY_FEE_RATE Model.poorWallet
           Model.segwit (Fin 1) None).
  repeat split.
Defined.

Lemma maxFunds_selected_indices_witness :
  StronglySorted Z.lt
    (map (indexOf Model.wallet) (sel_utxos Model.sweepOfWallet))
  /\ forall u, In u (sel_utxos Model.sweepOfWallet) ->
       nth_error Model.wallet (Z.to_nat (indexOf Model.wallet u)) = Some u.
Proof.
  apply (@maxFunds_selected_indices Model.Handle Model.vsize Model.isDust
           Model.MAX_FEE_RATE Model.DUST_RELAY_FEE_RATE Model.wallet
           Model.segwit (Fin 1) None Model.sweepOfWallet ltac:(vm_compute; reflexivity)).
  repeat constructor; simpl; intuition discriminate.
Defined.

Lemma maxFunds_keeps_valuable_witness :
  In (Model.utxo 0 Model.segwit 100000) (sel_utxos Model.sweepOfDustyWallet).
Proof.
  apply (@maxFunds_keeps_valuable Model.Handle Model.vsize Model.isDust
           Model.MAX_FEE_RATE Model.DUST_RELAY_FEE_RATE Model.dustyWallet
           Model.segwit (Fin 1) None Model.sweepOfDustyWallet
           (Model.utxo 0 Model.segwit 100000) Model_vsize_positive).
  - left. vm_compute; reflexivity.
  - vm_compute; reflexivity.
  - vm_compute; reflexivity.
Defined.
